(** * Events and participants service: model of [models.py] and [main.py]

    The handlers of [main.py] are embedded as computations over the document
    container.  Python [str] is modelled by Rocq [string], the UTF-8 bytes of
    the text, and Python [int] by [Z].  [str.lower], [str.upper] and the text
    of the error that [list.sort] raises on keys of two types belong to the
    Python runtime and are taken as parameters (class [Python]).  A pydantic
    model and the dict it is turned into are modelled by one record; the
    registration date, the one field whose run-time value is not always a
    [str] and whose key a dict can lack, has a type of its own. *)

From Stdlib Require Import ZArith Ascii String Sorted.
From stdpp Require Import base option list strings gmap.

Open Scope string_scope.
Open Scope list_scope.
Open Scope Z_scope.

(** ** models.py *)

(** What the field [registration_date: str = Field(default_factory=
    datetime.utcnow)] holds at run time: the [str] a supplied value validates
    to, or the [datetime] object the default factory returned, which pydantic
    does not validate (an instant, in microseconds). *)
Inductive registration :=
| Str (s : string)
| Datetime (utcnow : Z).

#[global] Instance registration_eq_dec : EqDecision registration.
Proof. solve_decision. Defined.

Module Participante.
(** [registration_date] is [None] in a dict that has no such key. *)
Record t := mk {
  id : string;
  name : string;
  email : string;
  registration_date : option registration
}.
End Participante.

Module Evento.
Record t := mk {
  id : string;
  name : string;
  description : option string;
  date : string;
  location : string;
  capacity : Z;
  participants : list Participante.t
}.
End Evento.

#[global] Instance Participante_eq_dec : EqDecision Participante.t.
Proof. solve_decision. Defined.

#[global] Instance Evento_eq_dec : EqDecision Evento.t.
Proof. solve_decision. Defined.

(** A request body as the framework hands it to a handler: the validated
    model together with pydantic's record of the fields the caller supplied
    ([__fields_set__]), which is what [.dict(exclude_unset=True)] keeps. *)
Record Body (A : Type) := mkBody {
  model : A;
  fields_set : gset string
}.
Arguments mkBody {A} _ _.
Arguments model {A} _.
Arguments fields_set {A} _.

(** [d.update(body.dict(exclude_unset=True))] on one key. *)
Definition merged {A B : Type} (key : string) (get : A → B)
    (existing : A) (body : Body A) : B :=
  if decide (key ∈ fields_set body) then get (model body) else get existing.

(** [Participante] built from a request payload at the clock reading [utcnow]: [id], [name]
    and [email] are required; a supplied [registration_date] is set, a missing
    one is filled by the default factory and stays out of the set fields. *)
Definition Participante_init (utcnow : Z) (id name email : string)
    (registration_date : option string) : Body Participante.t :=
  match registration_date with
  | Some s =>
      mkBody (Participante.mk id name email (Some (Str s)))
        {["id"; "name"; "email"; "registration_date"]}
  | None =>
      mkBody (Participante.mk id name email (Some (Datetime utcnow)))
        {["id"; "name"; "email"]}
  end.

(** [p.dict(exclude_unset=True)] of a participant nested in an event body.
    The registration date is the one field that can be unset, and it is unset
    exactly when the model holds the default, a [datetime]: the dict then has
    no such key. *)
Definition dict_exclude_unset (p : Participante.t) : Participante.t :=
  match Participante.registration_date p with
  | Some (Datetime _) =>
      {| Participante.id := Participante.id p;
         Participante.name := Participante.name p;
         Participante.email := Participante.email p;
         Participante.registration_date := None |}
  | _ => p
  end.

(** [existing_event.update(updated_event.dict(exclude_unset=True))]; the
    exclusion of unset fields reaches into the participants of the body. *)
Definition update_Evento (existing : Evento.t) (body : Body Evento.t) : Evento.t :=
  {| Evento.id := merged "id" Evento.id existing body;
     Evento.name := merged "name" Evento.name existing body;
     Evento.description := merged "description" Evento.description existing body;
     Evento.date := merged "date" Evento.date existing body;
     Evento.location := merged "location" Evento.location existing body;
     Evento.capacity := merged "capacity" Evento.capacity existing body;
     Evento.participants :=
       if decide ("participants" ∈ fields_set body)
       then dict_exclude_unset <$> Evento.participants (model body)
       else Evento.participants existing |}.

(** [participant.update(updated_participant.dict(exclude_unset=True))] *)
Definition update_Participante (existing : Participante.t)
    (body : Body Participante.t) : Participante.t :=
  {| Participante.id := merged "id" Participante.id existing body;
     Participante.name := merged "name" Participante.name existing body;
     Participante.email := merged "email" Participante.email existing body;
     Participante.registration_date :=
       merged "registration_date" Participante.registration_date existing body |}.

(** [event['participants'] = ps] on a document. *)
Definition set_participants (event : Evento.t) (ps : list Participante.t) : Evento.t :=
  {| Evento.id := Evento.id event;
     Evento.name := Evento.name event;
     Evento.description := Evento.description event;
     Evento.date := Evento.date event;
     Evento.location := Evento.location event;
     Evento.capacity := Evento.capacity event;
     Evento.participants := ps |}.

(** [len(xs)] *)
Definition len {A : Type} (xs : list A) : Z := Z.of_nat (length xs).

(** ** Exceptions *)

Inductive CosmosError :=
| CosmosResourceExistsError (message : string)
| CosmosResourceNotFoundError (message : string)
| CosmosHttpResponseError (message : string).

Inductive exn :=
| Cosmos (e : CosmosError)
| HTTPException (status_code : Z) (detail : string)
| KeyError (key : string)
| TypeError (message : string).

(** [str(e)] *)
Definition str (e : CosmosError) : string :=
  match e with
  | CosmosResourceExistsError m => m
  | CosmosResourceNotFoundError m => m
  | CosmosHttpResponseError m => m
  end.

(** The error kinds of the interface, as the exceptions the handlers raise. *)
Definition AlreadyExists : exn :=
  HTTPException 400 "El evento con este ID ya existe.".
Definition NotFound : exn :=
  HTTPException 404 "Evento no encontrado.".
Definition ParticipantNotFound : exn :=
  HTTPException 404 "Participante no encontrado.".
Definition CapacityExceeded : exn :=
  HTTPException 400 "Capacidad del evento alcanzada.".
Definition DuplicateParticipant : exn :=
  HTTPException 400 "El participante con este ID ya está inscrito.".
Definition InvalidState : exn :=
  HTTPException 400
    "La capacidad no puede ser menor que el número de participantes actuales.".
Definition InvalidArgument : exn :=
  HTTPException 400 "Formato de fecha inválido. Use YYYY-MM-DD.".

(** ** The container and the handler monad *)

Abbreviation Container := (gmap string Evento.t).

Inductive result (A : Type) :=
| Return (a : A)
| Raise (e : exn).
Arguments Return {A} _.
Arguments Raise {A} _.

(** A handler runs against the container and leaves a container behind,
    also when it raises. *)
Definition M (A : Type) : Type := Container → Container * result A.

#[global] Instance M_ret : MRet M := λ A a c, (c, Return a).
#[global] Instance M_bind : MBind M := λ A B k m c,
  match m c with
  | (c', Return a) => k a c'
  | (c', Raise e) => (c', Raise e)
  end.
Definition raise {A} (e : exn) : M A := λ c, (c, Raise e).

(** [try: m  except ...: h] where [h] re-raises what no clause matches. *)
Definition try_except {A} (m : M A) (h : exn → M A) : M A :=
  λ c, match m c with
       | (c', Return a) => (c', Return a)
       | (c', Raise e) => h e c'
       end.

(** Modelled from the spec: the module [database] that builds [container] is
    not among the sources.  The container is the document store of section 6:
    point create, read, replace and delete of a document by its id, which is
    also its partition key.  A read hands out a copy of the stored document. *)
Definition create_item (body : Evento.t) : M unit :=
  λ c, match c !! Evento.id body with
       | Some _ => (c, Raise (Cosmos (CosmosResourceExistsError "Conflict")))
       | None => (<[Evento.id body := body]> c, Return tt)
       end.

Definition read_item (item : string) : M Evento.t :=
  λ c, match c !! item with
       | Some doc => (c, Return doc)
       | None => (c, Raise (Cosmos (CosmosResourceNotFoundError "NotFound")))
       end.

Definition replace_item (item : string) (body : Evento.t) : M unit :=
  λ c, match c !! item with
       | Some _ => (<[item := body]> c, Return tt)
       | None => (c, Raise (Cosmos (CosmosResourceNotFoundError "NotFound")))
       end.

Definition delete_item (item : string) : M unit :=
  λ c, match c !! item with
       | Some _ => (delete item c, Return tt)
       | None => (c, Raise (Cosmos (CosmosResourceNotFoundError "NotFound")))
       end.

(** The two [except] clauses every handler ends with. *)
Definition except_exists {A} (e : exn) : M A :=
  match e with
  | Cosmos (CosmosResourceExistsError _) => raise AlreadyExists
  | Cosmos e' => raise (HTTPException 400 (str e'))
  | _ => raise e
  end.

Definition except_not_found {A} (e : exn) : M A :=
  match e with
  | Cosmos (CosmosResourceNotFoundError _) => raise NotFound
  | Cosmos e' => raise (HTTPException 400 (str e'))
  | _ => raise e
  end.

(** ** main.py: events *)

Definition create_event (event : Evento.t) : M Evento.t :=
  try_except
    (create_item event;;
     mret event)
    except_exists.

Definition get_event (event_id : string) : M Evento.t :=
  try_except
    (event ← read_item event_id;
     mret event)
    except_not_found.

Definition update_event (event_id : string) (updated_event : Body Evento.t)
    : M Evento.t :=
  try_except
    (existing_event ← read_item event_id;
     let existing_event := update_Evento existing_event updated_event in
     if Evento.capacity existing_event <? len (Evento.participants existing_event)
     then raise InvalidState
     else
       replace_item event_id existing_event;;
       mret existing_event)
    except_not_found.

Definition delete_event (event_id : string) : M unit :=
  try_except
    (delete_item event_id;;
     mret tt)
    except_not_found.

(** ** main.py: participants *)

(** [next((p for p in ps if p['id'] == participant_id), None)], with the
    position of the entry, which is the object the handler then holds. *)
Definition next_by_id (participant_id : string) (ps : list Participante.t)
    : option (nat * Participante.t) :=
  list_find (λ p, Participante.id p = participant_id) ps.

Definition add_participant (event_id : string) (participant : Participante.t)
    : M Participante.t :=
  try_except
    (event ← read_item event_id;
     if len (Evento.participants event) >=? Evento.capacity event
     then raise CapacityExceeded
     else if bool_decide
               (Exists (λ p, Participante.id p = Participante.id participant)
                  (Evento.participants event))
     then raise DuplicateParticipant
     else
       let event := set_participants event (Evento.participants event ++ [participant]) in
       replace_item event_id event;;
       mret participant)
    except_not_found.

Definition get_participant (event_id participant_id : string) : M Participante.t :=
  try_except
    (event ← read_item event_id;
     match next_by_id participant_id (Evento.participants event) with
     | Some (_, participant) => mret participant
     | None => raise ParticipantNotFound
     end)
    except_not_found.

(** The handler updates the dict it found in place, so the list it then
    rebuilds already holds the merged entry at that position. *)
Definition update_participant (event_id participant_id : string)
    (updated_participant : Body Participante.t) : M Participante.t :=
  try_except
    (event ← read_item event_id;
     match next_by_id participant_id (Evento.participants event) with
     | None => raise ParticipantNotFound
     | Some (i, participant) =>
         let participant := update_Participante participant updated_participant in
         let in_place := <[i := participant]> (Evento.participants event) in
         let event :=
           set_participants event
             ((λ p, if decide (Participante.id p ≠ participant_id)
                    then p else participant) <$> in_place) in
         replace_item event_id event;;
         mret participant
     end)
    except_not_found.

Definition delete_participant (event_id participant_id : string) : M unit :=
  try_except
    (event ← read_item event_id;
     match next_by_id participant_id (Evento.participants event) with
     | None => raise ParticipantNotFound
     | Some _ =>
         let event :=
           set_participants event
             (filter (λ p, Participante.id p ≠ participant_id)
                (Evento.participants event)) in
         replace_item event_id event;;
         mret tt
     end)
    except_not_found.

(** ** Python strings *)

Definition lower_ascii (c : ascii) : ascii :=
  let n := nat_of_ascii c in
  if ((65 <=? n) && (n <=? 90))%nat then ascii_of_nat (n + 32) else c.

Definition upper_ascii (c : ascii) : ascii :=
  let n := nat_of_ascii c in
  if ((97 <=? n) && (n <=? 122))%nat then ascii_of_nat (n - 32) else c.

(** [s.lower()] and [s.upper()] on a text of ASCII characters. *)
Fixpoint ascii_lower (s : string) : string :=
  match s with
  | EmptyString => EmptyString
  | String c s' => String (lower_ascii c) (ascii_lower s')
  end.

Fixpoint ascii_upper (s : string) : string :=
  match s with
  | EmptyString => EmptyString
  | String c s' => String (upper_ascii c) (ascii_upper s')
  end.

(** A text of ASCII characters: every byte is below 128. *)
Fixpoint is_ascii (s : string) : bool :=
  match s with
  | EmptyString => true
  | String c s' => (nat_of_ascii c <? 128)%nat && is_ascii s'
  end.

(** The Python runtime.  [lower] and [upper] are [str.lower] and [str.upper],
    which follow the Unicode case tables; all the model fixes of them is what
    they do to ASCII text.  [sort_type_error keys reverse] is the text of the
    [TypeError] that [list.sort] raises when it meets a [str] and a
    [datetime] among its keys; it names the two types in the order of the
    first comparison that meets them. *)
Class Python := {
  lower : string → string;
  upper : string → string;
  sort_type_error : list registration → bool → string;
  lower_on_ascii s : is_ascii s = true → lower s = ascii_lower s;
  upper_on_ascii s : is_ascii s = true → upper s = ascii_upper s
}.

(** [needle in hay] on two [str]. *)
Fixpoint str_in (needle hay : string) : bool :=
  String.prefix needle hay ||
  match hay with
  | EmptyString => false
  | String _ hay' => str_in needle hay'
  end.

(** [if s:] on an optional query parameter: [None] and the empty string are
    falsy. *)
Definition truthy (s : option string) : bool :=
  match s with
  | Some s => bool_decide (s ≠ "")
  | None => false
  end.

(** [xs.sort(key=key, reverse=reverse)] on [str] keys: a stable sort, also
    when reversed. *)
Fixpoint insert_sorted {A} (before : A → A → bool) (x : A) (l : list A) : list A :=
  match l with
  | [] => [x]
  | y :: l' => if before y x then y :: insert_sorted before x l' else x :: l
  end.

Definition sort {A} (key : A → string) (reverse : bool) (l : list A) : list A :=
  let before y x :=
    if reverse then String.ltb (key x) (key y) else String.ltb (key y) (key x) in
  foldr (insert_sorted before) [] l.

(** The same sort on [datetime] keys. *)
Definition sort_datetimes {A} (key : A → Z) (reverse : bool) (l : list A) : list A :=
  let before y x :=
    if reverse then key x <? key y else key y <? key x in
  foldr (insert_sorted before) [] l.

(** The text and the instant of a registration date of that kind. *)
Definition registration_text (p : Participante.t) : string :=
  match Participante.registration_date p with
  | Some (Str s) => s
  | _ => ""
  end.

Definition registration_instant (p : Participante.t) : Z :=
  match Participante.registration_date p with
  | Some (Datetime t) => t
  | _ => 0
  end.

Definition is_Str (r : registration) : Prop :=
  match r with Str _ => True | Datetime _ => False end.

Definition is_Datetime (r : registration) : Prop :=
  match r with Str _ => False | Datetime _ => True end.

#[global] Instance is_Str_dec r : Decision (is_Str r).
Proof. destruct r; simpl; apply _. Defined.

#[global] Instance is_Datetime_dec r : Decision (is_Datetime r).
Proof. destruct r; simpl; apply _. Defined.

(** [except CosmosResourceNotFoundError] then [except Exception as e], which
    also takes what [list.sort] raises; no statement under that [try] raises
    an [HTTPException] itself.  [str] of a [KeyError] is the key in quotes. *)
Definition except_any {A} (e : exn) : M A :=
  match e with
  | Cosmos (CosmosResourceNotFoundError _) => raise NotFound
  | Cosmos e' => raise (HTTPException 400 (str e'))
  | HTTPException _ detail => raise (HTTPException 400 detail)
  | KeyError key => raise (HTTPException 400 ("'" +:+ key +:+ "'"))
  | TypeError message => raise (HTTPException 400 message)
  end.

Section PythonRuntime.
Context {python : Python}.

(** [participants.sort(key=lambda x: x['registration_date'], reverse=reverse)].
    The keys are taken from every entry first, which raises [KeyError] when a
    dict lacks the key; keys of one type are compared with each other, and a
    list that holds keys of both types cannot be sorted without comparing a
    [str] with a [datetime], which raises [TypeError]. *)
Definition sort_by_registration_date (reverse : bool) (participants : list Participante.t)
    : M (list Participante.t) :=
  match mapM Participante.registration_date participants with
  | None => raise (KeyError "registration_date")
  | Some keys =>
      if decide (Forall is_Str keys)
      then mret (sort registration_text reverse participants)
      else if decide (Forall is_Datetime keys)
      then mret (sort_datetimes registration_instant reverse participants)
      else raise (TypeError (sort_type_error keys reverse))
  end.

Definition list_participants (event_id : string)
    (name email sort_by : option string) (order : string)
    : M (list Participante.t) :=
  try_except
    (event ← read_item event_id;
     let participants := Evento.participants event in
     let participants :=
       if truthy name
       then filter (λ p, str_in (lower (default "" name))
                           (lower (Participante.name p)) = true) participants
       else participants in
     let participants :=
       if truthy email
       then filter (λ p, str_in (lower (default "" email))
                           (lower (Participante.email p)) = true) participants
       else participants in
     participants ←
       (if decide (sort_by = Some "name")
        then mret (sort Participante.name
                     (bool_decide (lower order = "desc")) participants)
        else if decide (sort_by = Some "registration_date")
        then sort_by_registration_date
               (bool_decide (lower order = "desc")) participants
        else mret participants);
     mret participants)
    except_any.

(** ** main.py: the event list *)

Record QueryParameter := mkQueryParameter { param_name : string; param_value : string }.

(** The calendar library and the query engine of the store are outside the
    repository: [strptime date fmt] is [None] where Python raises
    [ValueError]; [query_items] is [container.query_items] with
    [enable_cross_partition_query=True], read out as a list. *)
Section EventQuery.
Variable datetime : Type.
Variable strptime : string → string → option datetime.
Variable strftime : datetime → string → string.
Variable query_items : string → list QueryParameter → M (list Evento.t).

(** Lines 43 to 59 of [list_events]: the query text and its parameters, or
    the exception raised while building them. *)
Definition list_events_query (date location sort_by : option string)
    (order : string) : result (string * list QueryParameter) :=
  let query := "SELECT * FROM c WHERE 1=1" in
  let params := [] in
  let after_date :=
    if truthy date then
      match strptime (default "" date) "%Y-%m-%d" with
      | Some date_obj =>
          Return (query +:+ " AND STARTSWITH(c.date, @date)",
                  params ++ [mkQueryParameter "@date" (strftime date_obj "%Y-%m-%d")])
      | None => Raise InvalidArgument
      end
    else Return (query, params) in
  match after_date with
  | Raise e => Raise e
  | Return (query, params) =>
      let '(query, params) :=
        if truthy location
        then (query +:+ " AND c.location = @location",
              params ++ [mkQueryParameter "@location" (default "" location)])
        else (query, params) in
      let query :=
        if bool_decide (sort_by ∈ [Some "date"; Some "name"])
        then query +:+ " ORDER BY c." +:+ default "" sort_by +:+ " " +:+ upper order
        else query in
      Return (query, params)
  end.

Definition except_http {A} (e : exn) : M A :=
  match e with
  | Cosmos e' => raise (HTTPException 400 (str e'))
  | _ => raise e
  end.

Definition list_events (date location sort_by : option string) (order : string)
    : M (list Evento.t) :=
  try_except
    (match list_events_query date location sort_by order with
     | Raise e => raise e
     | Return (query, params) =>
         items ← query_items query params;
         mret items
     end)
    except_http.
End EventQuery.
End PythonRuntime.

(** * Notions of the interface *)

(** The capacity rule of the data model. *)
Definition within_capacity (event : Evento.t) : Prop :=
  Evento.capacity event >= len (Evento.participants event).

Definition all_within_capacity (c : Container) : Prop :=
  ∀ event_id event, c !! event_id = Some event → within_capacity event.

(** What the interface asks of a filter, in its own words: with the case of
    both texts folded, the filter text occurs in the field. *)
Definition contains_ignoring_case {python : Python} (needle hay : string) : Prop :=
  ∃ pre post, lower hay = pre +:+ lower needle +:+ post.

(** A filter that was not supplied accepts every participant. *)
Definition passes {python : Python} (filter : option string) (field : string) : Prop :=
  match filter with
  | Some needle => contains_ignoring_case needle field
  | None => True
  end.

(** A participant of an event body and the dict that leaves out what was not
    set: the same id, name and email; the registration date when it was
    supplied, which makes it a [str], and no such key otherwise. *)
Definition without_unset (p q : Participante.t) : Prop :=
  Participante.id q = Participante.id p
  ∧ Participante.name q = Participante.name p
  ∧ Participante.email q = Participante.email p
  ∧ Participante.registration_date q
    = match Participante.registration_date p with
      | Some (Str s) => Some (Str s)
      | _ => None
      end.

(** Letter case on ASCII text, said without the functions of the model.  Two
    characters are the same letter when they are equal or one is a capital
    A-Z and the other the small letter 32 places after it. *)
Definition is_capital (c : ascii) : Prop := (65 ≤ nat_of_ascii c ≤ 90)%nat.
Definition is_small (c : ascii) : Prop := (97 ≤ nat_of_ascii c ≤ 122)%nat.

Definition same_letter (c d : ascii) : Prop :=
  c = d
  ∨ (is_capital c ∧ nat_of_ascii d = nat_of_ascii c + 32)%nat
  ∨ (is_capital d ∧ nat_of_ascii c = nat_of_ascii d + 32)%nat.

Inductive same_ignoring_case : string → string → Prop :=
| same_empty : same_ignoring_case "" ""
| same_String c d s t :
    same_letter c d → same_ignoring_case s t →
    same_ignoring_case (String c s) (String d t).

(** [d] is [c] in upper case: the capital 32 places before a small letter
    a-z, and [c] itself otherwise. *)
Definition capital_of (c d : ascii) : Prop :=
  (is_small c ∧ nat_of_ascii d + 32 = nat_of_ascii c)%nat
  ∨ (¬ is_small c ∧ d = c).

Inductive uppercased : string → string → Prop :=
| uppercased_empty : uppercased "" ""
| uppercased_String c d s t :
    capital_of c d → uppercased s t → uppercased (String c s) (String d t).

(** * Stand-ins for the outside world *)

(** A calendar for running the handler: [strptime] and [strftime] for the one
    format the service uses, after the standard library's rules for [%Y]
    (four digits), [%m] and [%d] (one or two digits, a day may be padded with
    a space), with the whole text consumed and the date checked against the
    calendar. *)
Module Calendar.
Record datetime := mk { year : Z; month : Z; day : Z }.

Definition digit (c : ascii) : option Z :=
  let n := Z.of_nat (nat_of_ascii c) in
  if (48 <=? n) && (n <=? 57) then Some (n - 48) else None.

Definition is_leap (y : Z) : bool :=
  (y mod 4 =? 0) && (negb (y mod 100 =? 0) || (y mod 400 =? 0)).

Definition days_in_month (y m : Z) : Z :=
  if m =? 2 then (if is_leap y then 29 else 28)
  else if bool_decide (m ∈ [4; 6; 9; 11]) then 30 else 31.

Definition dash : ascii := "-".
Definition space : ascii := " ".

Definition month_of (s : list ascii) : option (Z * list ascii) :=
  match s with
  | a :: b :: rest =>
      if decide (b = dash)
      then d ← digit a; if 1 <=? d then Some (d, rest) else None
      else
        match rest with
        | sep :: rest' =>
            if decide (sep = dash)
            then da ← digit a; db ← digit b;
                 if ((da =? 1) && (db <=? 2)) || ((da =? 0) && (1 <=? db))
                 then Some (10 * da + db, rest') else None
            else None
        | [] => None
        end
  | _ => None
  end.

Definition day_of (s : list ascii) : option Z :=
  match s with
  | [a] => d ← digit a; if 1 <=? d then Some d else None
  | [a; b] =>
      if decide (a = space)
      then d ← digit b; if 1 <=? d then Some d else None
      else da ← digit a; db ← digit b;
           if ((da =? 3) && (db <=? 1)) || (da =? 1) || (da =? 2)
              || ((da =? 0) && (1 <=? db))
           then Some (10 * da + db) else None
  | _ => None
  end.

Definition strptime (date_string format : string) : option datetime :=
  if decide (format = "%Y-%m-%d") then
    match list_ascii_of_string date_string with
    | y1 :: y2 :: y3 :: y4 :: sep :: rest =>
        if decide (sep = dash) then
          d1 ← digit y1; d2 ← digit y2; d3 ← digit y3; d4 ← digit y4;
          let y := 1000 * d1 + 100 * d2 + 10 * d3 + d4 in
          '(m, rest) ← month_of rest;
          d ← day_of rest;
          if (1 <=? y) && (d <=? days_in_month y m) then Some (mk y m d) else None
        else None
    | _ => None
    end
  else None.

Fixpoint decimal (width : nat) (n : Z) : string :=
  match width with
  | O => ""
  | S w => decimal w (n / 10)
           +:+ String (ascii_of_nat (48 + Z.to_nat (n mod 10))) ""
  end.

Definition strftime (d : datetime) (format : string) : string :=
  if decide (format = "%Y-%m-%d")
  then decimal 4 (year d) +:+ "-" +:+ decimal 2 (month d) +:+ "-" +:+ decimal 2 (day d)
  else format.
End Calendar.

(** A collection without documents answers every query with no items. *)
Definition query_items_empty (query : string) (parameters : list QueryParameter)
    : M (list Evento.t) := mret [].

(** A Python runtime for running the handlers on ASCII text, where it does
    what [str.lower] and [str.upper] do. *)
Definition ascii_python : Python :=
  {| lower := ascii_lower;
     upper := ascii_upper;
     sort_type_error _ _ :=
       "'<' not supported between instances of 'datetime.datetime' and 'str'";
     lower_on_ascii _ _ := eq_refl;
     upper_on_ascii _ _ := eq_refl |}.

(** ** Sample documents *)

Definition participant_of (participant_id name : string) : Participante.t :=
  {| Participante.id := participant_id;
     Participante.name := name;
     Participante.email := ascii_lower name +:+ "@example.com";
     Participante.registration_date := Some (Str "2024-09-01T10:00:00") |}.

Definition event_of (capacity : Z) (ps : list Participante.t) : Evento.t :=
  {| Evento.id := "e1";
     Evento.name := "Conferencia Tech 2024";
     Evento.description := None;
     Evento.date := "2024-09-15T09:00:00Z";
     Evento.location := "Centro de Convenciones Ciudad";
     Evento.capacity := capacity;
     Evento.participants := ps |}.

Definition stored (event : Evento.t) : Container := <[Evento.id event := event]> ∅.

Definition enrolled : list Participante.t :=
  [ participant_of "p1" "Joanna";
    {| Participante.id := "p2"; Participante.name := "Bob";
       Participante.email := "bob.jones@example.com";
       Participante.registration_date := Some (Str "2024-09-02T08:30:00") |};
    {| Participante.id := "p3"; Participante.name := "MaJo";
       Participante.email := "majo@Example.COM";
       Participante.registration_date := Some (Str "2024-09-03T12:00:00") |};
    {| Participante.id := "p4"; Participante.name := "Jorge";
       Participante.email := "jorge@correo.pe";
       Participante.registration_date := Some (Str "2024-09-04T12:00:00") |} ].

(** An engine that rejects every query with the given message. *)
Definition query_items_rejecting (message query : string)
    (parameters : list QueryParameter) : M (list Evento.t) :=
  raise (Cosmos (CosmosHttpResponseError message)).

(** Three participants, two of them registered on the same day. *)
Definition same_day : list Participante.t :=
  [ {| Participante.id := "p1"; Participante.name := "Zoe";
       Participante.email := "zoe@example.com";
       Participante.registration_date := Some (Str "2024-09-01") |};
    {| Participante.id := "p2"; Participante.name := "Ana";
       Participante.email := "ana@example.com";
       Participante.registration_date := Some (Str "2024-09-02") |};
    {| Participante.id := "p3"; Participante.name := "Luz";
       Participante.email := "luz@example.com";
       Participante.registration_date := Some (Str "2024-09-01") |} ].

(** * The routes *)

(** The routes that [main.py] registers on the container alone, with the
    status code each decorator gives to a successful answer (200 where the
    decorator names none). *)
Inductive request :=
| POST_events (event : Evento.t)
| GET_event (event_id : string)
| PUT_event (event_id : string) (updated_event : Body Evento.t)
| DELETE_event (event_id : string)
| POST_participants (event_id : string) (participant : Participante.t)
| GET_participant (event_id participant_id : string)
| GET_participants (event_id : string) (name email sort_by : option string)
    (order : string)
| PUT_participant (event_id participant_id : string)
    (updated_participant : Body Participante.t)
| DELETE_participant (event_id participant_id : string).

Inductive content :=
| AnEvent (event : Evento.t)
| AParticipant (participant : Participante.t)
| SomeParticipants (participants : list Participante.t)
| NoContent.

Definition respond {A} (status_code : Z) (wrap : A → content) (m : M A)
    : M (Z * content) :=
  a ← m; mret (status_code, wrap a).

Definition app {python : Python} (r : request) : M (Z * content) :=
  match r with
  | POST_events event => respond 201 AnEvent (create_event event)
  | GET_event event_id => respond 200 AnEvent (get_event event_id)
  | PUT_event event_id updated_event =>
      respond 200 AnEvent (update_event event_id updated_event)
  | DELETE_event event_id => respond 204 (λ _, NoContent) (delete_event event_id)
  | POST_participants event_id participant =>
      respond 201 AParticipant (add_participant event_id participant)
  | GET_participant event_id participant_id =>
      respond 200 AParticipant (get_participant event_id participant_id)
  | GET_participants event_id name email sort_by order =>
      respond 200 SomeParticipants
        (list_participants event_id name email sort_by order)
  | PUT_participant event_id participant_id updated_participant =>
      respond 200 AParticipant
        (update_participant event_id participant_id updated_participant)
  | DELETE_participant event_id participant_id =>
      respond 204 (λ _, NoContent) (delete_participant event_id participant_id)
  end.

(** The event a request is addressed to. *)
Definition target (r : request) : string :=
  match r with
  | POST_events event => Evento.id event
  | GET_event event_id | PUT_event event_id _ | DELETE_event event_id
  | POST_participants event_id _ | GET_participant event_id _
  | GET_participants event_id _ _ _ _ | PUT_participant event_id _ _
  | DELETE_participant event_id _ => event_id
  end.

(** The requests that only read. *)
Definition is_GET (r : request) : bool :=
  match r with
  | GET_event _ | GET_participant _ _ | GET_participants _ _ _ _ _ => true
  | _ => false
  end.

(** Adjacent entries of a sorted answer: the later key is never the smaller
    one ([ascending]) or never the larger one ([descending]). *)
Definition ascending {A} (key : A → string) (l : list A) : Prop :=
  Sorted (λ a b, String.ltb (key b) (key a) = false) l.

Definition descending {A} (key : A → string) (l : list A) : Prop :=
  Sorted (λ a b, String.ltb (key a) (key b) = false) l.

(** The field a sort key names. *)
Definition sort_key (sort_by : string) : Participante.t → string :=
  if decide (sort_by = "name") then Participante.name
  else registration_text.

(** The participant ids of a stored event. *)
Definition ids (event : Evento.t) : list string :=
  Participante.id <$> Evento.participants event.

(** A participant whose registration date is a [str]. *)
Definition has_str_date (p : Participante.t) : Prop :=
  ∃ s, Participante.registration_date p = Some (Str s).

(** * Properties *)

(** ** Running a handler *)

Ltac run_handler :=
  unfold create_event, get_event, update_event, delete_event,
    add_participant, get_participant, update_participant, delete_participant,
    list_participants, try_except, except_exists, except_not_found, except_any,
    create_item, read_item, replace_item, delete_item, raise,
    mbind, M_bind, mret, M_ret;
  cbv beta iota zeta.

(** Closed decidable facts are settled by evaluation. *)
Ltac by_decide := apply (bool_decide_eq_true_1 _); vm_compute; reflexivity.

Lemma error_kinds_distinct : CapacityExceeded ≠ DuplicateParticipant.
Proof. discriminate. Qed.

Lemma len_app {A} (l k : list A) : len (l ++ k) = len l + len k.
Proof. unfold len. rewrite length_app. lia. Qed.

Lemma Exists_id_elem_of (participant_id : string) (ps : list Participante.t) :
  Exists (λ p, Participante.id p = participant_id) ps
  ↔ participant_id ∈ Participante.id <$> ps.
Proof.
  rewrite Exists_exists, list_elem_of_fmap.
  split; [intros (p & Hp & Hid) | intros (p & Hid & Hp)]; eauto.
Qed.

(** ** Adding a participant *)

Lemma add_participant_full c event_id event participant :
  c !! event_id = Some event →
  len (Evento.participants event) >= Evento.capacity event →
  add_participant event_id participant c = (c, Raise CapacityExceeded).
Proof.
  intros Hc Hfull. run_handler. rewrite Hc.
  destruct (Z.geb_spec (len (Evento.participants event)) (Evento.capacity event));
    [done | lia].
Qed.

Lemma add_participant_duplicate c event_id event participant :
  c !! event_id = Some event →
  len (Evento.participants event) < Evento.capacity event →
  Participante.id participant ∈ Participante.id <$> Evento.participants event →
  add_participant event_id participant c = (c, Raise DuplicateParticipant).
Proof.
  intros Hc Hroom Hdup. run_handler. rewrite Hc.
  destruct (Z.geb_spec (len (Evento.participants event)) (Evento.capacity event));
    [lia |].
  rewrite bool_decide_eq_true_2 by (by apply Exists_id_elem_of). done.
Qed.

Lemma add_participant_appends c event_id event participant :
  c !! event_id = Some event →
  len (Evento.participants event) < Evento.capacity event →
  Participante.id participant ∉ Participante.id <$> Evento.participants event →
  add_participant event_id participant c =
    (<[event_id := set_participants event (Evento.participants event ++ [participant])]> c,
     Return participant).
Proof.
  intros Hc Hroom Hnew. run_handler. rewrite Hc.
  destruct (Z.geb_spec (len (Evento.participants event)) (Evento.capacity event));
    [lia |].
  rewrite bool_decide_eq_false_2 by (by rewrite Exists_id_elem_of).
  simpl. by rewrite Hc.
Qed.

(** C3 (amended).  For an existing event, adding a participant fails with
    [CapacityExceeded] when [len(participants) >= capacity]; when there is
    room and an entry already has the new id it fails with
    [DuplicateParticipant]; in both cases the stored event is as it was.
    Otherwise the participant is stored at the end of the list: a read of the
    event shows every earlier entry at its index, the new one after them and
    a length that grew by exactly one. *)
Theorem add_participant_spec (c : Container) event_id event participant :
  c !! event_id = Some event →
  let ps := Evento.participants event in
  (len ps >= Evento.capacity event →
     add_participant event_id participant c = (c, Raise CapacityExceeded)
     ∧ get_event event_id c = (c, Return event))
  ∧ (len ps < Evento.capacity event →
     Participante.id participant ∈ Participante.id <$> ps →
     add_participant event_id participant c = (c, Raise DuplicateParticipant)
     ∧ get_event event_id c = (c, Return event))
  ∧ (len ps < Evento.capacity event →
     Participante.id participant ∉ Participante.id <$> ps →
     ∃ c' event',
       add_participant event_id participant c = (c', Return participant)
       ∧ get_event event_id c' = (c', Return event')
       ∧ Evento.participants event' = ps ++ [participant]
       ∧ length (Evento.participants event') = S (length ps)
       ∧ (∀ i p, ps !! i = Some p → Evento.participants event' !! i = Some p)
       ∧ Evento.participants event' !! length ps = Some participant).
Proof.
  intros Hc ps.
  assert (Hread : get_event event_id c = (c, Return event))
    by (run_handler; by rewrite Hc).
  split; [|split].
  - intros Hfull. split; [by apply (add_participant_full _ _ event) | done].
  - intros Hroom Hdup. split; [by apply (add_participant_duplicate _ _ event) | done].
  - intros Hroom Hnew.
    exists (<[event_id := set_participants event (ps ++ [participant])]> c),
      (set_participants event (ps ++ [participant])).
    split; [by apply add_participant_appends|].
    split; [run_handler; by rewrite lookup_insert_eq|].
    split; [reflexivity|]. split; [|split].
    + simpl. rewrite length_app. simpl. lia.
    + intros i p Hi. simpl. by apply lookup_app_l_Some.
    + simpl. by rewrite lookup_app_r, Nat.sub_diag by lia.
Qed.

Lemma add_participant_spec_witness :
  let ana := participant_of "p1" "Ana" in
  let luz := participant_of "p2" "Luz" in
  (add_participant "e1" (participant_of "p3" "Eva") (stored (event_of 2 [ana; luz]))
   = (stored (event_of 2 [ana; luz]), Raise CapacityExceeded)
   ∧ get_event "e1" (stored (event_of 2 [ana; luz]))
     = (stored (event_of 2 [ana; luz]), Return (event_of 2 [ana; luz])))
  ∧ (add_participant "e1" (participant_of "p1" "Eva") (stored (event_of 2 [ana]))
     = (stored (event_of 2 [ana]), Raise DuplicateParticipant)
     ∧ get_event "e1" (stored (event_of 2 [ana]))
       = (stored (event_of 2 [ana]), Return (event_of 2 [ana])))
  ∧ ∃ c' event',
      add_participant "e1" luz (stored (event_of 2 [ana])) = (c', Return luz)
      ∧ get_event "e1" c' = (c', Return event')
      ∧ Evento.participants event' = [ana] ++ [luz]
      ∧ length (Evento.participants event') = 2%nat
      ∧ (∀ i p, [ana] !! i = Some p → Evento.participants event' !! i = Some p)
      ∧ Evento.participants event' !! 1%nat = Some luz.
Proof.
  intros ana luz. split; [|split].
  - destruct (add_participant_spec (stored (event_of 2 [ana; luz]))
                "e1" _ (participant_of "p3" "Eva") eq_refl) as (Hfull & _ & _).
    apply Hfull. vm_compute. discriminate.
  - destruct (add_participant_spec (stored (event_of 2 [ana]))
                "e1" _ (participant_of "p1" "Eva") eq_refl) as (_ & Hdup & _).
    apply Hdup; [reflexivity | by_decide].
  - destruct (add_participant_spec (stored (event_of 2 [ana]))
                "e1" _ luz eq_refl) as (_ & _ & Hnew).
    apply Hnew; [reflexivity | by_decide].
Defined.

(** C3 as stated fails where both conditions meet: the event is full and the
    new id is already enrolled, yet the error is not [DuplicateParticipant]. *)
Lemma add_participant_full_duplicate_counterexample :
  let event := event_of 1 [participant_of "p1" "Ana"] in
  let participant := participant_of "p1" "Ana" in
  Participante.id participant ∈ Participante.id <$> Evento.participants event
  ∧ (add_participant "e1" participant (stored event)).2 ≠ Raise DuplicateParticipant
  ∧ (add_participant "e1" participant (stored event)).2 = Raise CapacityExceeded.
Proof.
  split; [vm_compute; left|]. split; [|reflexivity].
  vm_compute. discriminate.
Qed.

(** ** The capacity-two example *)

(** C2 (amended).  From an event ["e1"] of capacity 2 without participants,
    adding ["p1"] and then ["p2"] succeeds and leaves a list of length 2; a
    further add of ["p3"] fails with [CapacityExceeded], and so does a further
    add of ["p1"]: the event is full, and the capacity test comes first. *)
Theorem add_sequence_example (c : Container) event p1 p2 p3 p1_again :
  c !! "e1" = Some event →
  Evento.capacity event = 2 →
  Evento.participants event = [] →
  Participante.id p1 = "p1" → Participante.id p2 = "p2" →
  Participante.id p3 = "p3" → Participante.id p1_again = "p1" →
  ∃ c1 c2 event2,
    add_participant "e1" p1 c = (c1, Return p1)
    ∧ add_participant "e1" p2 c1 = (c2, Return p2)
    ∧ c2 !! "e1" = Some event2
    ∧ Evento.participants event2 = [p1; p2]
    ∧ length (Evento.participants event2) = 2%nat
    ∧ add_participant "e1" p3 c2 = (c2, Raise CapacityExceeded)
    ∧ add_participant "e1" p1_again c2 = (c2, Raise CapacityExceeded).
Proof.
  intros Hc Hcap Hps Hp1 Hp2 Hp3 Hp1'.
  set (event1 := set_participants event (Evento.participants event ++ [p1])).
  set (c1 := <["e1" := event1]> c).
  set (event2 := set_participants event1 (Evento.participants event1 ++ [p2])).
  set (c2 := <["e1" := event2]> c1).
  assert (Hc1 : c1 !! "e1" = Some event1) by apply lookup_insert_eq.
  assert (Hc2 : c2 !! "e1" = Some event2) by apply lookup_insert_eq.
  assert (Hps2 : Evento.participants event2 = [p1; p2])
    by (simpl; by rewrite Hps).
  exists c1, c2, event2. repeat apply conj; try done.
  - apply (add_participant_appends c "e1" event); [done | |]; rewrite Hps.
    + rewrite Hcap. done.
    + apply not_elem_of_nil.
  - apply (add_participant_appends c1 "e1" event1); [done | |];
      simpl; rewrite Hps; simpl.
    + rewrite Hcap. done.
    + rewrite Hp1, Hp2. rewrite list_elem_of_singleton. discriminate.
  - by rewrite Hps2.
  - apply (add_participant_full c2 "e1" event2); [done|].
    rewrite Hps2. simpl. rewrite Hcap. done.
  - apply (add_participant_full c2 "e1" event2); [done|].
    rewrite Hps2. simpl. rewrite Hcap. done.
Qed.

Lemma add_sequence_example_witness :
  ∃ c1 c2 event2,
    add_participant "e1" (participant_of "p1" "Ana") (stored (event_of 2 []))
      = (c1, Return (participant_of "p1" "Ana"))
    ∧ add_participant "e1" (participant_of "p2" "Luz") c1
      = (c2, Return (participant_of "p2" "Luz"))
    ∧ c2 !! "e1" = Some event2
    ∧ Evento.participants event2
      = [participant_of "p1" "Ana"; participant_of "p2" "Luz"]
    ∧ length (Evento.participants event2) = 2%nat
    ∧ add_participant "e1" (participant_of "p3" "Eva") c2 = (c2, Raise CapacityExceeded)
    ∧ add_participant "e1" (participant_of "p1" "Ana") c2 = (c2, Raise CapacityExceeded).
Proof.
  apply (add_sequence_example (stored (event_of 2 [])) (event_of 2 []));
    reflexivity.
Defined.

(** C2 as stated fails at its last step: after ["p1"] and ["p2"] were added to
    the event of capacity 2, adding ["p1"] again is not answered with
    [DuplicateParticipant]. *)
Lemma add_sequence_counterexample :
  let c := stored (event_of 2 []) in
  let c1 := (add_participant "e1" (participant_of "p1" "Ana") c).1 in
  let c2 := (add_participant "e1" (participant_of "p2" "Luz") c1).1 in
  (add_participant "e1" (participant_of "p2" "Luz") c1).2
    = Return (participant_of "p2" "Luz")
  ∧ (add_participant "e1" (participant_of "p3" "Eva") c2).2 = Raise CapacityExceeded
  ∧ (add_participant "e1" (participant_of "p1" "Ana") c2).2 ≠ Raise DuplicateParticipant.
Proof.
  split; [reflexivity|]. split; [reflexivity|].
  vm_compute. discriminate.
Qed.

(** ** The default registration date *)

(** C5.  A participant built from a request that supplies no registration
    date holds the clock reading as a [datetime] object: the default is not
    validated against the declared [str].  Where the event has room and the
    id is new, the handler hands to [replace_item] the event with that
    participant as its last entry; the store keeps what it is handed, so the
    event read back afterwards ends with a participant whose registration
    date is that [datetime] and no string, and so has the participant that
    the handler returns. *)
Theorem add_participant_default_date (c : Container) event_id event (utcnow : Z)
    (id name email : string) :
  c !! event_id = Some event →
  len (Evento.participants event) < Evento.capacity event →
  id ∉ Participante.id <$> Evento.participants event →
  ∃ c' event' returned entry,
    add_participant event_id (model (Participante_init utcnow id name email None)) c
    = (c', Return returned)
    ∧ get_event event_id c' = (c', Return event')
    ∧ last (Evento.participants event') = Some entry
    ∧ Participante.id entry = id
    ∧ Participante.name entry = name
    ∧ Participante.email entry = email
    ∧ Participante.registration_date entry = Some (Datetime utcnow)
    ∧ (∀ s, Participante.registration_date entry ≠ Some (Str s))
    ∧ Participante.registration_date returned = Some (Datetime utcnow).
Proof.
  intros Hc Hroom Hnew.
  set (participant := model (Participante_init utcnow id name email None)).
  exists (<[event_id := set_participants event
                          (Evento.participants event ++ [participant])]> c),
    (set_participants event (Evento.participants event ++ [participant])),
    participant, participant.
  split; [by apply add_participant_appends|].
  split; [run_handler; by rewrite lookup_insert_eq|].
  split; [simpl; apply last_snoc|].
  do 4 (split; [reflexivity|]). split; [|reflexivity].
  intros s. discriminate.
Qed.

Lemma add_participant_default_date_witness :
  let event := event_of 5 [participant_of "p1" "Ana"] in
  ∃ c' event' returned entry,
    add_participant "e1"
      (model (Participante_init 1725181200000000 "p2" "Luz" "luz@example.com" None))
      (stored event)
    = (c', Return returned)
    ∧ get_event "e1" c' = (c', Return event')
    ∧ last (Evento.participants event') = Some entry
    ∧ Participante.id entry = "p2"
    ∧ Participante.name entry = "Luz"
    ∧ Participante.email entry = "luz@example.com"
    ∧ Participante.registration_date entry = Some (Datetime 1725181200000000)
    ∧ (∀ s, Participante.registration_date entry ≠ Some (Str s))
    ∧ Participante.registration_date returned = Some (Datetime 1725181200000000).
Proof.
  intros event.
  apply (add_participant_default_date (stored event) "e1" event 1725181200000000
           "p2" "Luz" "luz@example.com");
    [reflexivity | reflexivity | by_decide].
Defined.

(** A registration date that the request supplies is stored as the string
    that was sent. *)
Example add_participant_supplied_date :
  Evento.participants
  <$> (add_participant "e1"
         (model (Participante_init 1725181200000000 "p2" "Luz" "luz@example.com"
                   (Some "2024-09-01T09:00:00")))
         (stored (event_of 5 []))).1 !! "e1"
  = Some [ {| Participante.id := "p2"; Participante.name := "Luz";
              Participante.email := "luz@example.com";
              Participante.registration_date := Some (Str "2024-09-01T09:00:00") |} ].
Proof. reflexivity. Qed.

(** The list that the add of the witness writes. *)
Example add_participant_default_date_stored :
  Evento.participants
  <$> (add_participant "e1"
         (model (Participante_init 1725181200000000 "p2" "Luz" "luz@example.com" None))
         (stored (event_of 5 [participant_of "p1" "Ana"]))).1 !! "e1"
  = Some [ participant_of "p1" "Ana";
           {| Participante.id := "p2"; Participante.name := "Luz";
              Participante.email := "luz@example.com";
              Participante.registration_date := Some (Datetime 1725181200000000) |} ].
Proof. reflexivity. Qed.

(** ** Updating an event *)

Lemma merged_supplied {A B} key (get : A → B) existing body :
  key ∈ fields_set body → merged key get existing body = get (model body).
Proof. intros Hin. unfold merged. by rewrite decide_True. Qed.

Lemma merged_unset {A B} key (get : A → B) existing body :
  key ∉ fields_set body → merged key get existing body = get existing.
Proof. intros Hnot. unfold merged. by rewrite decide_False. Qed.

Lemma dict_exclude_unset_without_unset (ps : list Participante.t) :
  Forall2 without_unset ps (dict_exclude_unset <$> ps).
Proof.
  induction ps as [|p ps IH]; [constructor|].
  rewrite fmap_cons. constructor; [|done].
  unfold without_unset, dict_exclude_unset.
  destruct p as [i n e [[s|t]|]]; done.
Qed.

(** C4.  For an existing event, the update merges the request into the stored
    document: each of the seven fields comes from the request when the
    request supplied it and from the stored document otherwise, and supplied
    participants are stored without the fields they left unset.  When the
    merge leaves [capacity < len(participants)] the update fails with
    [InvalidState] and a read still returns the stored document; when the
    capacity rule holds after the merge, the merged document is returned and
    is what a read returns from then on. *)
Theorem update_event_spec (c : Container) event_id existing_event updated_event :
  c !! event_id = Some existing_event →
  ∃ merged_event,
    Evento.id merged_event
    = (if decide ("id" ∈ fields_set updated_event)
       then Evento.id (model updated_event) else Evento.id existing_event)
    ∧ Evento.name merged_event
      = (if decide ("name" ∈ fields_set updated_event)
         then Evento.name (model updated_event) else Evento.name existing_event)
    ∧ Evento.description merged_event
      = (if decide ("description" ∈ fields_set updated_event)
         then Evento.description (model updated_event)
         else Evento.description existing_event)
    ∧ Evento.date merged_event
      = (if decide ("date" ∈ fields_set updated_event)
         then Evento.date (model updated_event) else Evento.date existing_event)
    ∧ Evento.location merged_event
      = (if decide ("location" ∈ fields_set updated_event)
         then Evento.location (model updated_event)
         else Evento.location existing_event)
    ∧ Evento.capacity merged_event
      = (if decide ("capacity" ∈ fields_set updated_event)
         then Evento.capacity (model updated_event)
         else Evento.capacity existing_event)
    ∧ (if decide ("participants" ∈ fields_set updated_event)
       then Forall2 without_unset (Evento.participants (model updated_event))
              (Evento.participants merged_event)
       else Evento.participants merged_event = Evento.participants existing_event)
    ∧ (Evento.capacity merged_event < len (Evento.participants merged_event) →
       update_event event_id updated_event c = (c, Raise InvalidState)
       ∧ get_event event_id c = (c, Return existing_event))
    ∧ (Evento.capacity merged_event >= len (Evento.participants merged_event) →
       ∃ c', update_event event_id updated_event c = (c', Return merged_event)
             ∧ get_event event_id c' = (c', Return merged_event)).
Proof.
  intros Hc. set (merged_event := update_Evento existing_event updated_event).
  exists merged_event.
  do 6 (split; [reflexivity|]). split; [|split].
  - simpl. case_decide; [apply dict_exclude_unset_without_unset | done].
  - intros Hlt. split; [|run_handler; by rewrite Hc].
    run_handler. rewrite Hc. cbv beta iota zeta. fold merged_event.
    destruct (Z.ltb_spec (Evento.capacity merged_event)
                (len (Evento.participants merged_event))); [done | lia].
  - intros Hge. exists (<[event_id := merged_event]> c).
    split; [|run_handler; by rewrite lookup_insert_eq].
    run_handler. rewrite Hc. cbv beta iota zeta. fold merged_event.
    destruct (Z.ltb_spec (Evento.capacity merged_event)
                (len (Evento.participants merged_event))); [lia |].
    by rewrite Hc.
Qed.

Lemma update_event_spec_witness :
  let existing := event_of 2 [participant_of "p1" "Ana"; participant_of "p2" "Luz"] in
  let shrink := mkBody (event_of 1 []) {["id"; "name"; "date"; "location"; "capacity"]} in
  let late := Participante.mk "p3" "Eva" "eva@example.com" (Some (Datetime 1725184800000000)) in
  let replace :=
    mkBody (event_of 5 [participant_of "p1" "Ana"; late])
      {["id"; "name"; "date"; "location"; "capacity"; "participants"]} in
  (update_event "e1" shrink (stored existing) = (stored existing, Raise InvalidState)
   ∧ get_event "e1" (stored existing) = (stored existing, Return existing))
  ∧ ∃ merged_event c',
      Evento.capacity merged_event = 5
      ∧ Forall2 without_unset [participant_of "p1" "Ana"; late]
          (Evento.participants merged_event)
      ∧ update_event "e1" replace (stored existing) = (c', Return merged_event)
      ∧ get_event "e1" c' = (c', Return merged_event).
Proof.
  intros existing shrink late replace. split.
  - destruct (update_event_spec (stored existing) "e1" existing shrink eq_refl)
      as (merged_event & _ & _ & _ & _ & _ & Hcapacity & Hparticipants & Hbad & _).
    apply Hbad. rewrite decide_False in Hparticipants by by_decide.
    rewrite Hcapacity, Hparticipants. reflexivity.
  - destruct (update_event_spec (stored existing) "e1" existing replace eq_refl)
      as (merged_event & _ & _ & _ & _ & _ & Hcapacity & Hparticipants & _ & Hgood).
    rewrite decide_True in Hcapacity by by_decide.
    rewrite decide_True in Hparticipants by by_decide.
    destruct Hgood as (c' & Hupdate & Hread).
    { rewrite Hcapacity. unfold len.
      rewrite <- (Forall2_length _ _ _ Hparticipants). vm_compute. discriminate. }
    exists merged_event, c'. split; [exact Hcapacity|]. by split.
Defined.

(** ** The capacity rule across the mutating handlers *)

Lemma all_within_capacity_insert (c : Container) event_id event :
  all_within_capacity c → within_capacity event →
  all_within_capacity (<[event_id := event]> c).
Proof.
  intros Hall Hev k e. rewrite lookup_insert. case_decide.
  - intros [= <-]. done.
  - apply Hall.
Qed.

Lemma all_within_capacity_delete (c : Container) event_id :
  all_within_capacity c → all_within_capacity (delete event_id c).
Proof.
  intros Hall k e. rewrite lookup_delete. case_decide; [done | apply Hall].
Qed.

Lemma len_filter_le {A} (P : A → Prop) `{∀ x, Decision (P x)} (l : list A) :
  len (filter P l) <= len l.
Proof. unfold len. pose proof (length_filter P l). lia. Qed.

Lemma update_event_keeps_capacity c event_id updated_event :
  all_within_capacity c →
  all_within_capacity (update_event event_id updated_event c).1.
Proof.
  intros Hall. run_handler. destruct (c !! event_id) as [existing|] eqn:Hc; [|done].
  cbv beta iota zeta.
  destruct (Z.ltb_spec (Evento.capacity (update_Evento existing updated_event))
              (len (Evento.participants (update_Evento existing updated_event))));
    [done |].
  rewrite Hc. simpl. apply all_within_capacity_insert; [done|].
  unfold within_capacity. lia.
Qed.

Lemma add_participant_keeps_capacity c event_id participant :
  all_within_capacity c →
  all_within_capacity (add_participant event_id participant c).1.
Proof.
  intros Hall. run_handler. destruct (c !! event_id) as [event|] eqn:Hc; [|done].
  cbv beta iota zeta.
  destruct (Z.geb_spec (len (Evento.participants event)) (Evento.capacity event));
    [done |].
  case_bool_decide; [done |].
  rewrite Hc. simpl. apply all_within_capacity_insert; [done|].
  unfold within_capacity. simpl. rewrite len_app. unfold len at 2. simpl. lia.
Qed.

Lemma update_participant_keeps_capacity c event_id participant_id updated_participant :
  all_within_capacity c →
  all_within_capacity
    (update_participant event_id participant_id updated_participant c).1.
Proof.
  intros Hall. run_handler. destruct (c !! event_id) as [event|] eqn:Hc; [|done].
  cbv beta iota zeta.
  destruct (next_by_id participant_id (Evento.participants event)) as [[i old]|];
    [|done].
  rewrite Hc. simpl. apply all_within_capacity_insert; [done|].
  specialize (Hall _ _ Hc). unfold within_capacity, len in *. simpl.
  by rewrite length_fmap, length_insert.
Qed.

Lemma delete_participant_keeps_capacity c event_id participant_id :
  all_within_capacity c →
  all_within_capacity (delete_participant event_id participant_id c).1.
Proof.
  intros Hall. run_handler. destruct (c !! event_id) as [event|] eqn:Hc; [|done].
  cbv beta iota zeta.
  destruct (next_by_id participant_id (Evento.participants event)) as [[i old]|];
    [|done].
  rewrite Hc. simpl. apply all_within_capacity_insert; [done|].
  specialize (Hall _ _ Hc). unfold within_capacity in *. simpl.
  pose proof (len_filter_le (λ p, Participante.id p ≠ participant_id)
                (Evento.participants event)). lia.
Qed.

Lemma delete_event_keeps_capacity c event_id :
  all_within_capacity c → all_within_capacity (delete_event event_id c).1.
Proof.
  intros Hall. run_handler. destruct (c !! event_id) as [event|] eqn:Hc; [|done].
  simpl. by apply all_within_capacity_delete.
Qed.

(** [create_event] stores the request as it is: the capacity rule holds
    afterwards exactly when the request satisfies it. *)
Lemma create_event_stores c event :
  c !! Evento.id event = None →
  create_event event c = (<[Evento.id event := event]> c, Return event).
Proof. intros Hc. run_handler. by rewrite Hc. Qed.

Lemma create_event_exists c event :
  is_Some (c !! Evento.id event) →
  create_event event c = (c, Raise AlreadyExists).
Proof. intros [existing Hc]. run_handler. by rewrite Hc. Qed.

Lemma create_event_keeps_capacity c event :
  all_within_capacity c → within_capacity event →
  all_within_capacity (create_event event c).1.
Proof.
  intros Hall Hev. destruct (c !! Evento.id event) eqn:Hc.
  - by rewrite create_event_exists.
  - rewrite create_event_stores by done. by apply all_within_capacity_insert.
Qed.

(** C1.  The request [{id: "e1", capacity: 1, participants: [p1, p2]}] passes
    the validation of [Evento] ([capacity >= 1]); [create_event] stores it in
    an empty container, and the stored event has more participants than
    capacity, a state that stays after an update of one of its participants. *)
Theorem create_event_over_capacity :
  let event := event_of 1 [participant_of "p1" "Ana"; participant_of "p2" "Luz"] in
  let body := mkBody (participant_of "p1" "Eva") {["id"; "name"; "email"]} in
  Evento.capacity event >= 1
  ∧ create_event event ∅ = (stored event, Return event)
  ∧ get_event "e1" (stored event) = (stored event, Return event)
  ∧ ¬ within_capacity event
  ∧ ¬ all_within_capacity (create_event event ∅).1
  ∧ ¬ all_within_capacity (update_participant "e1" "p1" body (stored event)).1.
Proof.
  intros event body.
  assert (Hover : ¬ within_capacity event).
  { unfold within_capacity. vm_compute. intros Hge. by apply Hge. }
  split; [vm_compute; discriminate|]. split; [reflexivity|]. split; [reflexivity|].
  split; [done|]. split.
  - intros Hall. apply Hover. apply (Hall "e1"). reflexivity.
  - intros Hall.
    specialize (Hall "e1" _ eq_refl). revert Hall.
    unfold within_capacity. vm_compute. intros Hge. by apply Hge.
Qed.

(** ** Finding a participant by id *)

Lemma next_by_id_absent participant_id (ps : list Participante.t) :
  participant_id ∉ Participante.id <$> ps → next_by_id participant_id ps = None.
Proof.
  intros Hnot. apply list_find_None, Forall_forall. intros p Hp Hid.
  apply Hnot, list_elem_of_fmap. eauto.
Qed.

Lemma next_by_id_present participant_id (ps : list Participante.t) :
  participant_id ∈ Participante.id <$> ps →
  ∃ i p, next_by_id participant_id ps = Some (i, p)
         ∧ ps !! i = Some p ∧ Participante.id p = participant_id.
Proof.
  intros Hin. apply list_elem_of_fmap in Hin as (p & -> & Hp).
  destruct (list_find_elem_of (λ q, Participante.id q = Participante.id p) ps p)
    as [[i q] Hfind]; [done.. |].
  exists i, q. split; [done|]. by apply list_find_Some in Hfind as (? & ? & _).
Qed.

Lemma next_by_id_unique participant_id (ps : list Participante.t) i p :
  NoDup (Participante.id <$> ps) →
  ps !! i = Some p → Participante.id p = participant_id →
  next_by_id participant_id ps = Some (i, p).
Proof.
  intros Hnodup Hi Hid. apply list_find_Some. repeat split; [done.. |].
  intros j q Hj Hlt Hq.
  assert (i = j); [|lia].
  apply (NoDup_lookup _ _ _ participant_id Hnodup);
    rewrite list_lookup_fmap; [rewrite Hi | rewrite Hj]; simpl; congruence.
Qed.

Lemma filter_other_ids participant_id (ps : list Participante.t) :
  participant_id ∉ Participante.id <$> ps →
  filter (λ p, Participante.id p ≠ participant_id) ps = ps.
Proof.
  induction ps as [|p ps IH]; [done|].
  rewrite fmap_cons, not_elem_of_cons. intros [Hp Hps].
  rewrite filter_cons_True by congruence. by rewrite IH.
Qed.

(** ** Deleting a participant *)

(** C7.  For an existing event whose participant ids are pairwise distinct,
    deleting a present id succeeds, and the event read back afterwards holds
    the old list with exactly that entry taken out: the entries before and
    after it are there in their order, the id is not in the stored list and
    the stored list is one shorter.  Deleting an absent id fails with
    [ParticipantNotFound] and the stored event stays. *)
Theorem delete_participant_spec (c : Container) event_id event participant_id :
  c !! event_id = Some event →
  NoDup (Participante.id <$> Evento.participants event) →
  let ps := Evento.participants event in
  (participant_id ∈ Participante.id <$> ps →
     ∃ c' event' before removed after,
       delete_participant event_id participant_id c = (c', Return tt)
       ∧ get_event event_id c' = (c', Return event')
       ∧ ps = before ++ removed :: after
       ∧ Participante.id removed = participant_id
       ∧ Evento.participants event' = before ++ after
       ∧ (participant_id ∉ Participante.id <$> Evento.participants event')
       ∧ S (length (Evento.participants event')) = length ps)
  ∧ (participant_id ∉ Participante.id <$> ps →
     delete_participant event_id participant_id c = (c, Raise ParticipantNotFound)
     ∧ get_event event_id c = (c, Return event)).
Proof.
  intros Hc Hnodup ps. subst ps. split.
  - intros Hin. set (ps := Evento.participants event) in *.
    destruct (next_by_id_present _ _ Hin) as (i & p & Hfind & Hi & Hid).
    apply list_elem_of_lookup_2, list_elem_of_split in Hi as (before & after & Hps).
    assert (Hrest : participant_id ∉ Participante.id <$> (before ++ after)).
    { rewrite Hps, fmap_app, fmap_cons in Hnodup.
      apply NoDup_app in Hnodup as (_ & Hbefore & Hafter).
      apply NoDup_cons in Hafter as (Hafter & _).
      rewrite fmap_app, elem_of_app. intros [Hb | Ha].
      - apply (Hbefore _ Hb). rewrite Hid. left.
      - apply Hafter. by rewrite Hid. }
    assert (Hfilter : filter (λ q, Participante.id q ≠ participant_id) ps
                      = before ++ after).
    { rewrite Hps, filter_app, filter_cons_False by (intros Hne; by apply Hne).
      rewrite fmap_app, elem_of_app in Hrest.
      rewrite !filter_other_ids; [done | |]; intros Hx; apply Hrest; auto. }
    assert (Hrun : delete_participant event_id participant_id c
                   = (<[event_id := set_participants event
                                      (filter (λ q, Participante.id q ≠ participant_id) ps)]> c,
                      Return tt)).
    { run_handler. rewrite Hc. cbv beta iota zeta. fold ps. rewrite Hfind.
      by rewrite Hc. }
    eexists _, _, before, p, after. split; [exact Hrun|].
    split; [run_handler; by rewrite lookup_insert_eq|].
    split; [done|]. split; [done|].
    assert (Hstored : Evento.participants
                        (set_participants event
                           (filter (λ q, Participante.id q ≠ participant_id) ps))
                      = before ++ after) by exact Hfilter.
    rewrite Hstored. split; [done|]. split; [done|].
    rewrite Hps, !length_app. simpl. lia.
  - intros Hnot. split.
    + run_handler. rewrite Hc. cbv beta iota zeta.
      by rewrite (next_by_id_absent _ _ Hnot).
    + run_handler. by rewrite Hc.
Qed.

Lemma delete_participant_spec_witness :
  let ana := participant_of "p1" "Ana" in
  let luz := participant_of "p2" "Luz" in
  let eva := participant_of "p3" "Eva" in
  let event := event_of 5 [ana; luz; eva] in
  (∃ c' event' before removed after,
     delete_participant "e1" "p2" (stored event) = (c', Return tt)
     ∧ get_event "e1" c' = (c', Return event')
     ∧ [ana; luz; eva] = before ++ removed :: after
     ∧ Participante.id removed = "p2"
     ∧ Evento.participants event' = before ++ after
     ∧ ("p2" ∉ Participante.id <$> Evento.participants event')
     ∧ S (length (Evento.participants event')) = 3%nat)
  ∧ delete_participant "e1" "p9" (stored event)
    = (stored event, Raise ParticipantNotFound)
  ∧ get_event "e1" (stored event) = (stored event, Return event).
Proof.
  intros ana luz eva event.
  assert (Hnodup : NoDup (Participante.id <$> Evento.participants event)).
  { by_decide. }
  destruct (delete_participant_spec (stored event) "e1" event "p2" eq_refl Hnodup)
    as (Hpresent & _).
  destruct (delete_participant_spec (stored event) "e1" event "p9" eq_refl Hnodup)
    as (_ & Habsent).
  split.
  - apply Hpresent. by_decide.
  - apply Habsent. by_decide.
Defined.

(** What the stored list is after the deletion of the witness. *)
Example delete_participant_stored :
  Evento.participants
  <$> (delete_participant "e1" "p2"
         (stored (event_of 5 [participant_of "p1" "Ana"; participant_of "p2" "Luz";
                              participant_of "p3" "Eva"]))).1 !! "e1"
  = Some [participant_of "p1" "Ana"; participant_of "p3" "Eva"].
Proof. reflexivity. Qed.

(** ** Updating a participant *)

(** The list the handler rebuilds after its in-place update, whatever the ids:
    every entry that carried the requested id becomes the merged participant. *)
Lemma rebuilt_list participant_id (ps : list Participante.t) i old new :
  ps !! i = Some old → Participante.id old = participant_id →
  (λ p, if decide (Participante.id p ≠ participant_id) then p else new)
    <$> <[i := new]> ps
  = (λ p, if decide (Participante.id p ≠ participant_id) then p else new) <$> ps.
Proof.
  intros Hi Hid. apply list_eq. intros j. rewrite !list_lookup_fmap.
  destruct (decide (i = j)) as [<-|Hne].
  - rewrite list_lookup_insert_eq by (by eapply lookup_lt_Some).
    rewrite Hi. simpl. rewrite (decide_False (P := Participante.id old ≠ _))
      by (intros Hne; by apply Hne).
    by case_decide.
  - by rewrite list_lookup_insert_ne.
Qed.

Lemma rebuilt_list_distinct participant_id (ps : list Participante.t) i old new :
  NoDup (Participante.id <$> ps) →
  ps !! i = Some old → Participante.id old = participant_id →
  (λ p, if decide (Participante.id p ≠ participant_id) then p else new)
    <$> <[i := new]> ps
  = <[i := new]> ps.
Proof.
  intros Hnodup Hi Hid. rewrite (rebuilt_list _ _ _ old) by done.
  apply list_eq. intros j. rewrite list_lookup_fmap.
  destruct (decide (i = j)) as [<-|Hne].
  - rewrite list_lookup_insert_eq by (by eapply lookup_lt_Some).
    rewrite Hi. simpl. by rewrite decide_False by (intros Hne; by apply Hne).
  - rewrite list_lookup_insert_ne by done.
    destruct (ps !! j) as [p|] eqn:Hj; [simpl|done].
    rewrite decide_True; [done|]. intros Hp. apply Hne.
    apply (NoDup_lookup _ _ _ participant_id Hnodup);
      rewrite list_lookup_fmap; [rewrite Hi | rewrite Hj]; simpl; congruence.
Qed.

Lemma next_by_id_only participant_id (ps : list Participante.t) i p :
  ps !! i = Some p → Participante.id p = participant_id →
  (∀ j q, ps !! j = Some q → Participante.id q = participant_id → j = i) →
  next_by_id participant_id ps = Some (i, p).
Proof.
  intros Hi Hid Honly. apply list_find_Some. repeat split; [done.. |].
  intros j q Hj Hlt Hq. specialize (Honly j q Hj Hq). lia.
Qed.

Lemma rebuilt_list_only participant_id (ps : list Participante.t) i old new :
  ps !! i = Some old → Participante.id old = participant_id →
  (∀ j q, ps !! j = Some q → Participante.id q = participant_id → j = i) →
  (λ p, if decide (Participante.id p ≠ participant_id) then p else new)
    <$> <[i := new]> ps
  = <[i := new]> ps.
Proof.
  intros Hi Hid Honly. rewrite (rebuilt_list _ _ _ old) by done.
  apply list_eq. intros j. rewrite list_lookup_fmap.
  destruct (decide (i = j)) as [<-|Hne].
  - rewrite list_lookup_insert_eq by (by eapply lookup_lt_Some).
    rewrite Hi. simpl. by rewrite decide_False by (intros Hne; by apply Hne).
  - rewrite list_lookup_insert_ne by done.
    destruct (ps !! j) as [p|] eqn:Hj; [simpl|done].
    rewrite decide_True; [done|]. intros Hp. apply Hne. symmetry. eauto.
Qed.

(** C9 (amended).  For an existing event in which the participant at index
    [i] is the only one that carries the requested id, the update succeeds
    for every request body, also one whose id is that of a sibling.  The
    participant returned has, field by field, the value of the body where the
    body supplied the field and the old value where it did not.  The event
    read back afterwards holds that participant at index [i], every other
    entry of the list, every other field of the event and every other event
    as they were. *)
Theorem update_participant_spec (c : Container) event_id event participant_id
    updated_participant (i : nat) old :
  c !! event_id = Some event →
  Evento.participants event !! i = Some old →
  Participante.id old = participant_id →
  (∀ j q, Evento.participants event !! j = Some q →
          Participante.id q = participant_id → j = i) →
  ∃ c' new event',
    update_participant event_id participant_id updated_participant c = (c', Return new)
    ∧ get_event event_id c' = (c', Return event')
    ∧ Participante.id new
      = (if decide ("id" ∈ fields_set updated_participant)
         then Participante.id (model updated_participant) else Participante.id old)
    ∧ Participante.name new
      = (if decide ("name" ∈ fields_set updated_participant)
         then Participante.name (model updated_participant) else Participante.name old)
    ∧ Participante.email new
      = (if decide ("email" ∈ fields_set updated_participant)
         then Participante.email (model updated_participant)
         else Participante.email old)
    ∧ Participante.registration_date new
      = (if decide ("registration_date" ∈ fields_set updated_participant)
         then Participante.registration_date (model updated_participant)
         else Participante.registration_date old)
    ∧ Evento.participants event' !! i = Some new
    ∧ length (Evento.participants event') = length (Evento.participants event)
    ∧ (∀ j, j ≠ i →
         Evento.participants event' !! j = Evento.participants event !! j)
    ∧ Evento.id event' = Evento.id event
    ∧ Evento.name event' = Evento.name event
    ∧ Evento.description event' = Evento.description event
    ∧ Evento.date event' = Evento.date event
    ∧ Evento.location event' = Evento.location event
    ∧ Evento.capacity event' = Evento.capacity event
    ∧ (∀ other, other ≠ event_id → c' !! other = c !! other).
Proof.
  intros Hc Hi Hid Honly.
  set (new := update_Participante old updated_participant).
  set (written := set_participants event (<[i := new]> (Evento.participants event))).
  assert (Hrun : update_participant event_id participant_id updated_participant c
                 = (<[event_id := written]> c, Return new)).
  { run_handler. rewrite Hc. cbv beta iota zeta.
    rewrite (next_by_id_only _ _ _ _ Hi Hid Honly). rewrite Hc.
    by rewrite (rebuilt_list_only _ _ _ old). }
  exists (<[event_id := written]> c), new, written.
  split; [exact Hrun|].
  split; [run_handler; by rewrite lookup_insert_eq|].
  do 4 (split; [reflexivity|]).
  split; [apply list_lookup_insert_eq; by eapply lookup_lt_Some|].
  split; [apply length_insert|].
  split; [intros j Hj; by apply list_lookup_insert_ne|].
  do 6 (split; [reflexivity|]).
  intros other Hother. by apply lookup_insert_ne.
Qed.

Lemma update_participant_spec_witness :
  let ana := participant_of "p1" "Ana" in
  let luz := participant_of "p2" "Luz" in
  let event := event_of 5 [ana; luz; luz] in
  let body := mkBody (participant_of "p2" "Eva") {["id"; "name"]} in
  ∃ c' new event',
    update_participant "e1" "p1" body (stored event) = (c', Return new)
    ∧ get_event "e1" c' = (c', Return event')
    ∧ Participante.id new = "p2"
    ∧ Participante.name new = "Eva"
    ∧ Participante.email new = Participante.email ana
    ∧ Participante.registration_date new = Participante.registration_date ana
    ∧ Evento.participants event' !! 0%nat = Some new
    ∧ length (Evento.participants event') = 3%nat
    ∧ (∀ j, j ≠ 0%nat → Evento.participants event' !! j = [ana; luz; luz] !! j)
    ∧ Evento.id event' = Evento.id event
    ∧ Evento.name event' = Evento.name event
    ∧ Evento.description event' = Evento.description event
    ∧ Evento.date event' = Evento.date event
    ∧ Evento.location event' = Evento.location event
    ∧ Evento.capacity event' = Evento.capacity event
    ∧ (∀ other, other ≠ "e1" → c' !! other = stored event !! other).
Proof.
  intros ana luz event body.
  apply (update_participant_spec (stored event) "e1" event "p1" body 0 ana);
    [reflexivity | reflexivity | reflexivity |].
  intros [|[|[|j]]] q Hj Hq; [reflexivity | exfalso..];
    vm_compute in Hj; simplify_eq; vm_compute in Hq; discriminate.
Defined.

(** C9 as stated fails once two entries share an id, which the missing
    uniqueness check allows: the first update gives ["p2"] the id ["p1"]; the
    second update, addressed to ["p1"], finds the entry at index 0 and yet
    also overwrites the entry at index 1. *)
Lemma update_participant_counterexample :
  let ana := participant_of "p1" "Ana" in
  let luz := participant_of "p2" "Luz" in
  let rename := mkBody (participant_of "p1" "Luz") {["id"; "name"; "email"]} in
  let body := mkBody (participant_of "p1" "Eva") {["id"; "name"; "email"]} in
  let c1 := (update_participant "e1" "p2" rename (stored (event_of 5 [ana; luz]))).1 in
  let c2 := (update_participant "e1" "p1" body c1).1 in
  Evento.participants <$> c1 !! "e1" = Some [ana; participant_of "p1" "Luz"]
  ∧ next_by_id "p1" [ana; participant_of "p1" "Luz"] = Some (0%nat, ana)
  ∧ Evento.participants <$> c2 !! "e1"
    = Some [participant_of "p1" "Eva"; participant_of "p1" "Eva"]
  ∧ (Evento.participants <$> c2 !! "e1") ≫= (.!! 1%nat)
    ≠ (Evento.participants <$> c1 !! "e1") ≫= (.!! 1%nat).
Proof.
  repeat split; try reflexivity. vm_compute. discriminate.
Qed.

(** ** Substring tests *)

Lemma append_cons a (s t : string) : String a s +:+ t = String a (s +:+ t).
Proof. reflexivity. Qed.

Lemma append_nil (t : string) : "" +:+ t = t.
Proof. reflexivity. Qed.

Lemma prefix_spec (needle hay : string) :
  String.prefix needle hay = true ↔ ∃ post, hay = needle +:+ post.
Proof.
  revert hay. induction needle as [|a needle IH]; intros hay.
  - split; [intros _; by exists hay | intros _; by destruct hay].
  - destruct hay as [|b hay]; simpl.
    + split; [done | intros [post Hpost]; by rewrite append_cons in Hpost].
    + destruct (ascii_dec a b) as [->|Hne].
      * rewrite IH. split; intros [post Hpost]; exists post;
          rewrite append_cons in *; congruence.
      * split; [done | intros [post Hpost]; rewrite append_cons in Hpost; congruence].
Qed.

Lemma str_in_nil (needle : string) :
  str_in needle "" = String.prefix needle "" || false.
Proof. reflexivity. Qed.

Lemma str_in_cons (needle : string) b (hay : string) :
  str_in needle (String b hay)
  = String.prefix needle (String b hay) || str_in needle hay.
Proof. reflexivity. Qed.

Lemma str_in_spec (needle hay : string) :
  str_in needle hay = true ↔ ∃ pre post, hay = pre +:+ needle +:+ post.
Proof.
  induction hay as [|b hay IH]; [rewrite str_in_nil | rewrite str_in_cons].
  - rewrite orb_false_r, prefix_spec. split.
    + intros [post Hpost]. by exists "", post.
    + intros (pre & post & Hhay). destruct pre as [|a pre];
        [by exists post | by rewrite append_cons in Hhay].
  - rewrite orb_true_iff, prefix_spec, IH. split.
    + intros [[post Hpost] | (pre & post & Hhay)].
      * by exists "", post.
      * exists (String b pre), post. by rewrite append_cons, Hhay.
    + intros (pre & post & Hhay). destruct pre as [|a pre].
      * left. by exists post.
      * right. exists pre, post. rewrite append_cons in Hhay. congruence.
Qed.

Lemma ascii_lower_app (s t : string) :
  ascii_lower (s +:+ t) = ascii_lower s +:+ ascii_lower t.
Proof.
  induction s as [|a s IH]; [done|].
  rewrite append_cons. simpl. by rewrite IH.
Qed.

Lemma ascii_lower_app_inv (s a b : string) :
  ascii_lower s = a +:+ b →
  ∃ s1 s2, s = s1 +:+ s2 ∧ ascii_lower s1 = a ∧ ascii_lower s2 = b.
Proof.
  revert s. induction a as [|x a IH]; intros s Hs.
  - by exists "", s.
  - rewrite append_cons in Hs. destruct s as [|y s]; simpl in Hs; [done|].
    injection Hs as Hx Hs. destruct (IH _ Hs) as (s1 & s2 & -> & <- & <-).
    exists (String y s1), s2. rewrite append_cons. simpl. by rewrite Hx.
Qed.

Lemma is_ascii_app (s t : string) :
  is_ascii (s +:+ t) = is_ascii s && is_ascii t.
Proof.
  induction s as [|a s IH]; [done|].
  rewrite append_cons. simpl. rewrite IH. by rewrite andb_assoc.
Qed.

(** ** Letter case *)

Lemma nat_of_ascii_inj (c d : ascii) : nat_of_ascii c = nat_of_ascii d → c = d.
Proof.
  intros Heq. rewrite <- (ascii_nat_embedding c), <- (ascii_nat_embedding d).
  by rewrite Heq.
Qed.

Lemma nat_of_lower_ascii (c : ascii) :
  nat_of_ascii (lower_ascii c)
  = if ((65 <=? nat_of_ascii c) && (nat_of_ascii c <=? 90))%nat
    then (nat_of_ascii c + 32)%nat else nat_of_ascii c.
Proof.
  unfold lower_ascii.
  destruct (Nat.leb_spec 65 (nat_of_ascii c)), (Nat.leb_spec (nat_of_ascii c) 90);
    simpl; try done.
  apply nat_ascii_embedding. lia.
Qed.

Lemma nat_of_upper_ascii (c : ascii) :
  nat_of_ascii (upper_ascii c)
  = if ((97 <=? nat_of_ascii c) && (nat_of_ascii c <=? 122))%nat
    then (nat_of_ascii c - 32)%nat else nat_of_ascii c.
Proof.
  unfold upper_ascii.
  destruct (Nat.leb_spec 97 (nat_of_ascii c)), (Nat.leb_spec (nat_of_ascii c) 122);
    simpl; try done.
  apply nat_ascii_embedding. lia.
Qed.

Lemma lower_ascii_same_letter (c d : ascii) :
  lower_ascii c = lower_ascii d ↔ same_letter c d.
Proof.
  assert (Heq : ∀ a b : ascii, a = b ↔ nat_of_ascii a = nat_of_ascii b)
    by (split; [congruence | apply nat_of_ascii_inj]).
  unfold same_letter, is_capital.
  rewrite (Heq (lower_ascii c)), (Heq c d), !nat_of_lower_ascii.
  destruct (Nat.leb_spec 65 (nat_of_ascii c)), (Nat.leb_spec (nat_of_ascii c) 90),
    (Nat.leb_spec 65 (nat_of_ascii d)), (Nat.leb_spec (nat_of_ascii d) 90);
    simpl; lia.
Qed.

Lemma ascii_lower_same_ignoring_case (s t : string) :
  ascii_lower s = ascii_lower t ↔ same_ignoring_case s t.
Proof.
  split.
  - revert t. induction s as [|c s IH]; intros [|d t] Heq; simpl in Heq;
      try done; [constructor|].
    injection Heq as Hc Hs. constructor; [by apply lower_ascii_same_letter | auto].
  - induction 1 as [|c d s t Hcd _ IH]; [done|]. simpl.
    by rewrite (proj2 (lower_ascii_same_letter c d) Hcd), IH.
Qed.

Lemma upper_ascii_capital_of (c : ascii) : capital_of c (upper_ascii c).
Proof.
  unfold capital_of, is_small.
  pose proof (nat_of_upper_ascii c) as Hnat.
  destruct (Nat.leb_spec 97 (nat_of_ascii c)), (Nat.leb_spec (nat_of_ascii c) 122);
    simpl in Hnat.
  - left. lia.
  - right. split; [lia | by apply nat_of_ascii_inj].
  - right. split; [lia | by apply nat_of_ascii_inj].
  - right. split; [lia | by apply nat_of_ascii_inj].
Qed.

Lemma ascii_upper_uppercased (s : string) : uppercased s (ascii_upper s).
Proof.
  induction s as [|c s IH]; simpl; constructor; [apply upper_ascii_capital_of | done].
Qed.

(** ** Filters *)

Section Filters.
Context {python : Python}.

Lemma lower_empty : lower "" = "".
Proof. by rewrite lower_on_ascii. Qed.

Lemma contains_ignoring_case_str_in (needle hay : string) :
  contains_ignoring_case needle hay ↔ str_in (lower needle) (lower hay) = true.
Proof. by rewrite str_in_spec. Qed.

#[global] Instance contains_ignoring_case_dec needle hay :
  Decision (contains_ignoring_case needle hay).
Proof.
  refine (cast_if (decide (str_in (lower needle) (lower hay) = true)));
    by rewrite contains_ignoring_case_str_in.
Defined.

Lemma contains_ignoring_case_empty (hay : string) : contains_ignoring_case "" hay.
Proof. exists "", (lower hay). by rewrite lower_empty. Qed.

#[global] Instance passes_dec filter field : Decision (passes filter field).
Proof. destruct filter; simpl; apply _. Defined.

(** On ASCII text the test of the handler is a search for the filter text
    with the case of its letters ignored. *)
Lemma contains_ignoring_case_ascii (needle hay : string) :
  is_ascii needle = true → is_ascii hay = true →
  contains_ignoring_case needle hay
  ↔ ∃ pre mid post, hay = pre +:+ mid +:+ post ∧ same_ignoring_case mid needle.
Proof.
  intros Hneedle Hhay. unfold contains_ignoring_case.
  rewrite (lower_on_ascii needle Hneedle), (lower_on_ascii hay Hhay). split.
  - intros (pre & post & Hlower).
    apply ascii_lower_app_inv in Hlower as (s1 & s2 & -> & <- & Hrest).
    apply ascii_lower_app_inv in Hrest as (s3 & s4 & -> & Hmid & <-).
    exists s1, s3, s4. split; [done|]. by apply ascii_lower_same_ignoring_case.
  - intros (pre & mid & post & -> & Hmid).
    apply ascii_lower_same_ignoring_case in Hmid.
    exists (ascii_lower pre), (ascii_lower post).
    by rewrite !ascii_lower_app, Hmid.
Qed.
End Filters.

(** ** Sorting keeps the entries *)

Lemma insert_sorted_Permutation {A} (before : A → A → bool) x (l : list A) :
  insert_sorted before x l ≡ₚ x :: l.
Proof.
  induction l as [|y l IH]; simpl; [done|].
  destruct (before y x); [|done]. rewrite IH. apply Permutation_swap.
Qed.

Lemma sort_Permutation {A} (key : A → string) reverse (l : list A) :
  sort key reverse l ≡ₚ l.
Proof.
  unfold sort. induction l as [|x l IH]; simpl; [done|].
  rewrite insert_sorted_Permutation. by rewrite IH.
Qed.

Lemma sort_datetimes_Permutation {A} (key : A → Z) reverse (l : list A) :
  sort_datetimes key reverse l ≡ₚ l.
Proof.
  unfold sort_datetimes. induction l as [|x l IH]; simpl; [done|].
  rewrite insert_sorted_Permutation. by rewrite IH.
Qed.

(** ** Listing participants *)

Lemma filter_all {A} (P : A → Prop) `{∀ x, Decision (P x)} (l : list A) :
  (∀ x, P x) → filter P l = l.
Proof.
  intros HP. induction l as [|x l IH]; [done|].
  rewrite filter_cons_True by done. by rewrite IH.
Qed.

Section Listing.
Context {python : Python}.

(** One [if f: ps = [p for p in ps if f.lower() in p[field].lower()]] step. *)
Lemma filter_step (f : option string) (field : Participante.t → string)
    (ps : list Participante.t) :
  (if truthy f
   then filter (λ p, str_in (lower (default "" f)) (lower (field p)) = true) ps
   else ps)
  = filter (λ p, passes f (field p)) ps.
Proof.
  destruct f as [needle|]; simpl.
  - case_bool_decide as Hneedle.
    + apply list_filter_iff. intros p.
      by rewrite contains_ignoring_case_str_in.
    + subst needle. symmetry. apply filter_all.
      intros p. apply contains_ignoring_case_empty.
  - symmetry. by apply filter_all.
Qed.

(** What the sort by registration date answers, when it answers. *)
Lemma sort_by_registration_date_Return reverse ps (c c' : Container) found :
  sort_by_registration_date reverse ps c = (c', Return found) →
  c' = c ∧ found ≡ₚ ps.
Proof.
  unfold sort_by_registration_date, raise, mret, M_ret.
  destruct (mapM _ ps) as [keys|]; [|done].
  repeat case_decide; intros [= <- <-];
    (split; [done|]); [apply sort_Permutation | apply sort_datetimes_Permutation].
Qed.

(** The listing of a stored event: the participants the filters keep, then
    the sort that was asked for. *)
Lemma list_participants_kept (c : Container) event_id event
    (name email sort_by : option string) (order : string) :
  c !! event_id = Some event →
  let kept :=
    filter (λ p, passes name (Participante.name p)
                 ∧ passes email (Participante.email p))
      (Evento.participants event) in
  list_participants event_id name email sort_by order c
  = if decide (sort_by = Some "name")
    then (c, Return (sort Participante.name (bool_decide (lower order = "desc")) kept))
    else if decide (sort_by = Some "registration_date")
    then try_except
           (sort_by_registration_date (bool_decide (lower order = "desc")) kept)
           except_any c
    else (c, Return kept).
Proof.
  intros Hc kept. run_handler. rewrite Hc. cbv beta iota zeta.
  rewrite (filter_step name Participante.name).
  rewrite (filter_step email Participante.email).
  rewrite list_filter_filter.
  rewrite (list_filter_iff _ (λ p, passes name (Participante.name p)
                                   ∧ passes email (Participante.email p)))
    by tauto.
  fold kept. repeat case_decide; try done;
    by destruct (sort_by_registration_date _ kept c) as [c' [found|e]].
Qed.
End Listing.

(** C6.  For an existing event, listing its participants with optional name
    and email filters keeps exactly the participants whose name contains the
    name filter and whose email contains the email filter, both with the case
    of the texts folded, a filter that is not supplied accepting everyone.
    Without a sort key they are returned in stored order, sorted by name
    they are the same participants reordered, and so is every list the
    handler returns.  On ASCII text, containing the filter with the case
    folded is having a substring that is the filter letter for letter, each
    letter in either case. *)
Theorem list_participants_spec {python : Python} (c : Container) event_id event
    (name email sort_by : option string) (order : string) :
  c !! event_id = Some event →
  let wanted :=
    filter (λ p, passes name (Participante.name p)
                 ∧ passes email (Participante.email p))
      (Evento.participants event) in
  (∀ p, p ∈ wanted ↔
        p ∈ Evento.participants event
        ∧ passes name (Participante.name p)
        ∧ passes email (Participante.email p))
  ∧ (sort_by ∉ [Some "name"; Some "registration_date"] →
     list_participants event_id name email sort_by order c = (c, Return wanted))
  ∧ (sort_by = Some "name" →
     ∃ found,
       list_participants event_id name email sort_by order c = (c, Return found)
       ∧ found ≡ₚ wanted)
  ∧ (∀ c' found,
       list_participants event_id name email sort_by order c = (c', Return found) →
       c' = c ∧ found ≡ₚ wanted)
  ∧ (∀ needle field,
       is_ascii needle = true → is_ascii field = true →
       passes (Some needle) field
       ↔ ∃ pre mid post,
           field = pre +:+ mid +:+ post ∧ same_ignoring_case mid needle).
Proof.
  intros Hc wanted.
  pose proof (list_participants_kept c event_id event name email sort_by order Hc)
    as Hlist. cbv zeta in Hlist. fold wanted in Hlist.
  split; [|split; [|split; [|split]]].
  - intros p. unfold wanted. rewrite list_elem_of_filter. tauto.
  - intros Hkey. rewrite !not_elem_of_cons in Hkey. destruct Hkey as (? & ? & _).
    by rewrite Hlist, !decide_False.
  - intros ->. eexists. split; [by rewrite Hlist, decide_True|].
    apply sort_Permutation.
  - intros c' found. rewrite Hlist.
    destruct (decide (sort_by = Some "name"));
      [intros [= <- <-]; split; [done | apply sort_Permutation]|].
    destruct (decide (sort_by = Some "registration_date"));
      [|by intros [= <- <-]].
    unfold try_except.
    destruct (sort_by_registration_date _ wanted c)
      as [c'' [sorted|failure]] eqn:Hsort.
    + intros [= <- <-]. by apply sort_by_registration_date_Return in Hsort.
    + destruct failure as [[]| | |]; simpl; discriminate.
  - intros needle field. apply contains_ignoring_case_ascii.
Qed.

Example list_participants_jo :
  list_participants (python := ascii_python)
    "e1" (Some "jo") (Some "example.com") None "asc"
    (stored (event_of 10 enrolled))
  = (stored (event_of 10 enrolled),
     Return (omap (enrolled !!.) [0; 2]%nat)).
Proof. reflexivity. Qed.

Example list_participants_sorted :
  (list_participants (python := ascii_python)
     "e1" (Some "JO") None (Some "name") "DESC"
     (stored (event_of 10 enrolled))).2
  = Return (omap (enrolled !!.) [2; 3; 0]%nat).
Proof. reflexivity. Qed.

Lemma list_participants_spec_witness :
  let event := event_of 10 enrolled in
  let wanted :=
    filter (λ p, passes (python := ascii_python) (Some "jo") (Participante.name p)
                 ∧ passes (python := ascii_python) (Some "example.com")
                     (Participante.email p))
      enrolled in
  list_participants (python := ascii_python)
    "e1" (Some "jo") (Some "example.com") None "asc" (stored event)
  = (stored event, Return wanted)
  ∧ (∃ found,
       list_participants (python := ascii_python)
         "e1" (Some "jo") (Some "example.com") (Some "name") "asc" (stored event)
       = (stored event, Return found)
       ∧ found ≡ₚ wanted)
  ∧ (passes (python := ascii_python) (Some "jo") "MaJo"
     ↔ ∃ pre mid post, "MaJo" = pre +:+ mid +:+ post ∧ same_ignoring_case mid "jo").
Proof.
  intros event wanted.
  destruct (list_participants_spec (python := ascii_python) (stored event) "e1" event
              (Some "jo") (Some "example.com") None "asc" eq_refl)
    as (_ & Hunsorted & _ & _ & Hletters).
  destruct (list_participants_spec (python := ascii_python) (stored event) "e1" event
              (Some "jo") (Some "example.com") (Some "name") "asc" eq_refl)
    as (_ & _ & Hsorted & _).
  split; [apply Hunsorted; by_decide|].
  split; [by apply Hsorted|].
  by apply Hletters.
Defined.

(** ** The event list: dates and sort keys *)

Example strptime_examples :
  Calendar.strptime "2024-09-15" "%Y-%m-%d" = Some (Calendar.mk 2024 9 15)
  ∧ Calendar.strptime "2024-2-29" "%Y-%m-%d" = Some (Calendar.mk 2024 2 29)
  ∧ Calendar.strftime (Calendar.mk 2024 2 29) "%Y-%m-%d" = "2024-02-29"
  ∧ Calendar.strptime "2023-02-29" "%Y-%m-%d" = None
  ∧ Calendar.strptime "15/09/2024" "%Y-%m-%d" = None
  ∧ Calendar.strptime "2024-09-15T09:00:00Z" "%Y-%m-%d" = None
  ∧ Calendar.strptime "" "%Y-%m-%d" = None.
Proof. repeat split; reflexivity. Qed.

Example list_events_query_example :
  list_events_query (python := ascii_python) _ Calendar.strptime Calendar.strftime
    (Some "2024-9-5") (Some "Lima") (Some "name") "desc"
  = Return
      ("SELECT * FROM c WHERE 1=1 AND STARTSWITH(c.date, @date)"
       +:+ " AND c.location = @location ORDER BY c.name DESC",
       [mkQueryParameter "@date" "2024-09-05"; mkQueryParameter "@location" "Lima"]).
Proof. reflexivity. Qed.

Section EventQueryProperties.
Context {python : Python}
        (datetime : Type)
        (strptime : string → string → option datetime)
        (strftime : datetime → string → string)
        (query_items : string → list QueryParameter → M (list Evento.t)).

Local Abbreviation build := (list_events_query datetime strptime strftime).
Local Abbreviation run := (list_events datetime strptime strftime query_items).

Lemma list_events_raises date location sort_by order status detail c :
  build date location sort_by order = Raise (HTTPException status detail) →
  run date location sort_by order c = (c, Raise (HTTPException status detail)).
Proof.
  intros Hq. unfold list_events, try_except. rewrite Hq. reflexivity.
Qed.

Lemma list_events_query_bad_date d location sort_by order :
  d ≠ "" → strptime d "%Y-%m-%d" = None →
  build (Some d) location sort_by order = Raise InvalidArgument.
Proof.
  intros Hd Hparse. unfold list_events_query. simpl.
  rewrite bool_decide_eq_true_2 by done. by rewrite Hparse.
Qed.

Lemma list_events_query_unsorted date location sort_by order :
  sort_by ∉ [Some "date"; Some "name"] →
  build date location sort_by order = build date location None order.
Proof.
  intros Hkey. unfold list_events_query.
  rewrite (bool_decide_eq_false_2 (sort_by ∈ _)) by done.
  rewrite (bool_decide_eq_false_2 (None ∈ _)); [done|].
  rewrite !not_elem_of_cons. repeat split; try done. apply not_elem_of_nil.
Qed.

Lemma list_events_query_no_order_by date location order query params :
  build date location None order = Return (query, params) →
  str_in "ORDER BY" query = false.
Proof.
  unfold list_events_query.
  rewrite (bool_decide_eq_false_2 (None ∈ _)); last first.
  { rewrite !not_elem_of_cons. repeat split; try done. apply not_elem_of_nil. }
  destruct (truthy date); [destruct (strptime _ _); [|done]|];
    destruct (truthy location); intros [= <- _]; reflexivity.
Qed.

Lemma list_events_query_empty_date location sort_by order :
  build (Some "") location sort_by order = build None location sort_by order.
Proof. reflexivity. Qed.
End EventQueryProperties.

(** C8 (amended).  The event list fails with [InvalidArgument] when the date
    filter is supplied, is not empty and does not parse as [YYYY-MM-DD]; an
    empty date filter is treated as no filter.  A sort key other than [date]
    and [name] is ignored: the handler behaves as without sort key and the
    query it issues has no ORDER BY clause. *)
Theorem list_events_spec {python : Python} (datetime : Type)
    (strptime : string → string → option datetime)
    (strftime : datetime → string → string)
    (query_items : string → list QueryParameter → M (list Evento.t))
    (date location sort_by : option string) (order : string) (c : Container) :
  (∀ d, date = Some d → d ≠ "" → strptime d "%Y-%m-%d" = None →
     list_events datetime strptime strftime query_items date location sort_by order c
     = (c, Raise InvalidArgument))
  ∧ (date = Some "" →
     list_events datetime strptime strftime query_items date location sort_by order c
     = list_events datetime strptime strftime query_items None location sort_by order c)
  ∧ (sort_by ∉ [Some "date"; Some "name"] →
     list_events datetime strptime strftime query_items date location sort_by order c
     = list_events datetime strptime strftime query_items date location None order c
     ∧ ∀ query params,
         list_events_query datetime strptime strftime date location sort_by order
         = Return (query, params) →
         str_in "ORDER BY" query = false).
Proof.
  split; [|split].
  - intros d -> Hd Hparse. apply list_events_raises.
    by apply list_events_query_bad_date.
  - intros ->. unfold list_events.
    by rewrite list_events_query_empty_date.
  - intros Hkey. split.
    + unfold list_events. by rewrite list_events_query_unsorted.
    + intros query params. rewrite list_events_query_unsorted by done.
      apply list_events_query_no_order_by.
Qed.

Lemma list_events_spec_witness :
  list_events (python := ascii_python) _ Calendar.strptime Calendar.strftime query_items_empty
    (Some "15/09/2024") None (Some "capacity") "asc" ∅
  = (∅, Raise InvalidArgument)
  ∧ list_events (python := ascii_python) _ Calendar.strptime Calendar.strftime query_items_empty
      (Some "") None (Some "capacity") "asc" ∅
    = list_events (python := ascii_python) _ Calendar.strptime Calendar.strftime query_items_empty
        None None (Some "capacity") "asc" ∅
  ∧ list_events (python := ascii_python) _ Calendar.strptime Calendar.strftime query_items_empty
      (Some "2024-09-15") None (Some "capacity") "asc" ∅
    = list_events (python := ascii_python) _ Calendar.strptime Calendar.strftime query_items_empty
        (Some "2024-09-15") None None "asc" ∅
  ∧ ∀ query params,
      list_events_query (python := ascii_python) _ Calendar.strptime Calendar.strftime
        (Some "2024-09-15") None (Some "capacity") "asc"
      = Return (query, params) →
      str_in "ORDER BY" query = false.
Proof.
  split; [|split].
  - destruct (list_events_spec (python := ascii_python) _ Calendar.strptime Calendar.strftime query_items_empty
                (Some "15/09/2024") None (Some "capacity") "asc" ∅) as (Hdate & _).
    apply (Hdate "15/09/2024"); [reflexivity | discriminate | reflexivity].
  - destruct (list_events_spec (python := ascii_python) _ Calendar.strptime Calendar.strftime query_items_empty
                (Some "") None (Some "capacity") "asc" ∅) as (_ & Hempty & _).
    apply Hempty. reflexivity.
  - destruct (list_events_spec (python := ascii_python) _ Calendar.strptime Calendar.strftime query_items_empty
                (Some "2024-09-15") None (Some "capacity") "asc" ∅) as (_ & _ & Hkey).
    apply Hkey. by_decide.
Defined.

(** C8 as stated fails for the empty date filter: it is supplied and does not
    parse as a date, and the list is returned all the same. *)
Lemma list_events_empty_date_counterexample :
  Calendar.strptime "" "%Y-%m-%d" = None
  ∧ list_events (python := ascii_python) _ Calendar.strptime Calendar.strftime query_items_empty
      (Some "") None None "asc" ∅
    = (∅, Return [])
  ∧ (list_events (python := ascii_python) _ Calendar.strptime Calendar.strftime query_items_empty
       (Some "") None None "asc" ∅).2
    ≠ Raise InvalidArgument.
Proof. repeat split; try reflexivity. discriminate. Qed.

(** C10.  The sort direction is not checked against [asc] and [desc]: for
    every text [order] and a sort key [date] or [name], whenever a query is
    built (the date filter is absent, empty or parses) its text ends with
    [ORDER BY c.<sort_by> <order.upper()>].  For an [order] of ASCII
    characters the text that is put there is [order] with each small letter
    replaced by its capital and every other character kept. *)
Theorem list_events_order_by {python : Python} (datetime : Type)
    (strptime : string → string → option datetime)
    (strftime : datetime → string → string)
    (date location : option string) (sort_by order : string) :
  sort_by ∈ ["date"; "name"] →
  (truthy date = true → is_Some (strptime (default "" date) "%Y-%m-%d")) →
  (∃ stem params,
     list_events_query datetime strptime strftime date location (Some sort_by) order
     = Return (stem +:+ " ORDER BY c." +:+ sort_by +:+ " " +:+ upper order, params)
     ∧ list_events_query datetime strptime strftime date location None order
       = Return (stem, params))
  ∧ (is_ascii order = true → uppercased order (upper order)).
Proof.
  intros Hkey Hdate. split; last first.
  { intros Hascii. rewrite (upper_on_ascii order Hascii). apply ascii_upper_uppercased. }
  unfold list_events_query.
  rewrite (bool_decide_eq_true_2 (Some sort_by ∈ _)); last first.
  { rewrite !elem_of_cons in Hkey. rewrite !elem_of_cons.
    destruct Hkey as [-> | [-> | []%elem_of_nil]]; auto. }
  rewrite (bool_decide_eq_false_2 (None ∈ _)); last first.
  { rewrite !not_elem_of_cons. repeat split; try done. apply not_elem_of_nil. }
  destruct (truthy date).
  - destruct (Hdate eq_refl) as [date_obj ->].
    destruct (truthy location); eexists _, _; split; reflexivity.
  - destruct (truthy location); eexists _, _; split; reflexivity.
Qed.

Lemma list_events_order_by_witness :
  (∃ stem params,
     list_events_query (python := ascii_python) _ Calendar.strptime Calendar.strftime
       (Some "2024-09-15") (Some "Lima") (Some "name") "desc; x"
     = Return (stem +:+ " ORDER BY c." +:+ "name" +:+ " "
               +:+ upper (Python := ascii_python) "desc; x", params)
     ∧ list_events_query (python := ascii_python) _ Calendar.strptime Calendar.strftime
         (Some "2024-09-15") (Some "Lima") None "desc; x"
       = Return (stem, params))
  ∧ uppercased "desc; x" (upper (Python := ascii_python) "desc; x").
Proof.
  destruct (list_events_order_by (python := ascii_python) _
              Calendar.strptime Calendar.strftime
              (Some "2024-09-15") (Some "Lima") "name" "desc; x")
    as (Hquery & Hupper).
  - by_decide.
  - intros _. by eexists.
  - split; [exact Hquery | by apply Hupper].
Defined.

Example order_is_interpolated :
  list_events_query (python := ascii_python) _ Calendar.strptime Calendar.strftime
    None None (Some "date") "sideways"
  = Return ("SELECT * FROM c WHERE 1=1 ORDER BY c.date SIDEWAYS", []).
Proof. reflexivity. Qed.

(** * Further properties of the handlers *)

(** ** Events: create, read, delete *)

(** X1.  Creating an event under a fresh id stores the request as it is and
    returns it, a read of that id then returns the same document, and every
    other stored event is untouched.  Creating under an id already in use
    fails with [AlreadyExists] and the stored document stays. *)
Theorem create_then_get (c : Container) event :
  (c !! Evento.id event = None →
     ∃ c', create_event event c = (c', Return event)
           ∧ get_event (Evento.id event) c' = (c', Return event)
           ∧ ∀ other, other ≠ Evento.id event → c' !! other = c !! other)
  ∧ (∀ existing, c !! Evento.id event = Some existing →
       create_event event c = (c, Raise AlreadyExists)
       ∧ get_event (Evento.id event) c = (c, Return existing)).
Proof.
  split.
  - intros Hc. exists (<[Evento.id event := event]> c).
    split; [by apply create_event_stores|]. split.
    + run_handler. by rewrite lookup_insert_eq.
    + intros other Hother. by apply lookup_insert_ne.
  - intros existing Hc. split; [by apply create_event_exists|].
    run_handler. by rewrite Hc.
Qed.

Lemma create_then_get_witness :
  (∃ c', create_event (event_of 3 []) ∅ = (c', Return (event_of 3 []))
         ∧ get_event "e1" c' = (c', Return (event_of 3 []))
         ∧ ∀ other, other ≠ "e1" → c' !! other = (∅ : Container) !! other)
  ∧ create_event (event_of 3 []) (stored (event_of 2 enrolled))
    = (stored (event_of 2 enrolled), Raise AlreadyExists)
  ∧ get_event "e1" (stored (event_of 2 enrolled))
    = (stored (event_of 2 enrolled), Return (event_of 2 enrolled)).
Proof.
  split.
  - apply (create_then_get ∅ (event_of 3 [])). reflexivity.
  - apply (create_then_get (stored (event_of 2 enrolled)) (event_of 3 [])).
    reflexivity.
Defined.

(** X2.  Every handler addressed to an event id that is not stored fails with
    the event [NotFound] (404) and leaves the container as it was, whatever
    the rest of the request. *)
Theorem absent_event_not_found {python : Python} (c : Container) event_id :
  c !! event_id = None →
  get_event event_id c = (c, Raise NotFound)
  ∧ (∀ updated_event, update_event event_id updated_event c = (c, Raise NotFound))
  ∧ delete_event event_id c = (c, Raise NotFound)
  ∧ (∀ participant, add_participant event_id participant c = (c, Raise NotFound))
  ∧ (∀ participant_id,
       get_participant event_id participant_id c = (c, Raise NotFound))
  ∧ (∀ name email sort_by order,
       list_participants event_id name email sort_by order c = (c, Raise NotFound))
  ∧ (∀ participant_id updated_participant,
       update_participant event_id participant_id updated_participant c
       = (c, Raise NotFound))
  ∧ (∀ participant_id,
       delete_participant event_id participant_id c = (c, Raise NotFound)).
Proof.
  intros Hc. repeat split; intros; run_handler; by rewrite Hc.
Qed.

Lemma absent_event_not_found_witness :
  get_event "e2" (stored (event_of 2 enrolled))
  = (stored (event_of 2 enrolled), Raise NotFound)
  ∧ (∀ updated_event,
       update_event "e2" updated_event (stored (event_of 2 enrolled))
       = (stored (event_of 2 enrolled), Raise NotFound))
  ∧ delete_event "e2" (stored (event_of 2 enrolled))
    = (stored (event_of 2 enrolled), Raise NotFound)
  ∧ (∀ participant,
       add_participant "e2" participant (stored (event_of 2 enrolled))
       = (stored (event_of 2 enrolled), Raise NotFound))
  ∧ (∀ participant_id,
       get_participant "e2" participant_id (stored (event_of 2 enrolled))
       = (stored (event_of 2 enrolled), Raise NotFound))
  ∧ (∀ name email sort_by order,
       list_participants (python := ascii_python) "e2" name email sort_by order (stored (event_of 2 enrolled))
       = (stored (event_of 2 enrolled), Raise NotFound))
  ∧ (∀ participant_id updated_participant,
       update_participant "e2" participant_id updated_participant
         (stored (event_of 2 enrolled))
       = (stored (event_of 2 enrolled), Raise NotFound))
  ∧ (∀ participant_id,
       delete_participant "e2" participant_id (stored (event_of 2 enrolled))
       = (stored (event_of 2 enrolled), Raise NotFound)).
Proof.
  apply (absent_event_not_found (python := ascii_python) (stored (event_of 2 enrolled)) "e2"). reflexivity.
Defined.

(** X3.  Deleting a stored event removes it: a read of that id then fails with
    [NotFound], a second delete fails the same way, the id can be created
    again, and every other stored event is untouched. *)
Theorem delete_event_removes (c : Container) event_id event :
  c !! event_id = Some event →
  ∃ c', delete_event event_id c = (c', Return tt)
        ∧ c' = delete event_id c
        ∧ get_event event_id c' = (c', Raise NotFound)
        ∧ delete_event event_id c' = (c', Raise NotFound)
        ∧ (∀ again, Evento.id again = event_id →
             create_event again c' = (<[event_id := again]> c', Return again))
        ∧ ∀ other, other ≠ event_id → c' !! other = c !! other.
Proof.
  intros Hc. exists (delete event_id c).
  assert (Hgone : delete event_id c !! event_id = None) by apply lookup_delete_eq.
  split; [run_handler; by rewrite Hc|]. split; [done|].
  split; [run_handler; by rewrite Hgone|].
  split; [run_handler; by rewrite Hgone|]. split.
  - intros again <-. by apply create_event_stores.
  - intros other Hother. by apply lookup_delete_ne.
Qed.

Lemma delete_event_removes_witness :
  ∃ c', delete_event "e1" (stored (event_of 2 enrolled)) = (c', Return tt)
        ∧ c' = delete "e1" (stored (event_of 2 enrolled))
        ∧ get_event "e1" c' = (c', Raise NotFound)
        ∧ delete_event "e1" c' = (c', Raise NotFound)
        ∧ (∀ again, Evento.id again = "e1" →
             create_event again c' = (<["e1" := again]> c', Return again))
        ∧ ∀ other, other ≠ "e1" →
            c' !! other = stored (event_of 2 enrolled) !! other.
Proof.
  apply (delete_event_removes (stored (event_of 2 enrolled)) "e1"
           (event_of 2 enrolled)).
  reflexivity.
Defined.

(** ** Participants: read, add, delete *)

Lemma set_participants_same (event : Evento.t) :
  set_participants event (Evento.participants event) = event.
Proof. by destruct event. Qed.

(** X4.  Reading a participant of a stored event returns the first entry of
    the list that carries the id, also when later entries carry it too; when
    no entry carries it the read fails with [ParticipantNotFound].  The
    container is never changed. *)
Theorem get_participant_first (c : Container) event_id event participant_id :
  c !! event_id = Some event →
  (∀ i p, Evento.participants event !! i = Some p →
          Participante.id p = participant_id →
          (∀ j q, Evento.participants event !! j = Some q → (j < i)%nat →
                  Participante.id q ≠ participant_id) →
          get_participant event_id participant_id c = (c, Return p))
  ∧ (participant_id ∉ ids event →
     get_participant event_id participant_id c = (c, Raise ParticipantNotFound))
  ∧ (participant_id ∈ ids event →
     ∃ p, get_participant event_id participant_id c = (c, Return p)
          ∧ p ∈ Evento.participants event ∧ Participante.id p = participant_id).
Proof.
  intros Hc. split; [|split].
  - intros i p Hi Hid Hfirst.
    assert (Hfind : next_by_id participant_id (Evento.participants event) = Some (i, p)).
    { apply list_find_Some. repeat split; [done.. |]. intros j q Hj Hlt. by eapply Hfirst. }
    run_handler. rewrite Hc. cbv beta iota zeta. by rewrite Hfind.
  - intros Hnot. run_handler. rewrite Hc. cbv beta iota zeta.
    by rewrite (next_by_id_absent _ _ Hnot).
  - intros Hin. destruct (next_by_id_present _ _ Hin) as (i & p & Hfind & Hi & Hid).
    exists p. split; [|split; [by eapply list_elem_of_lookup_2 | done]].
    run_handler. rewrite Hc. cbv beta iota zeta. by rewrite Hfind.
Qed.

Lemma get_participant_first_witness :
  let ana := participant_of "p1" "Ana" in
  let twin := participant_of "p1" "Luz" in
  let event := event_of 5 [ana; twin] in
  get_participant "e1" "p1" (stored event) = (stored event, Return ana)
  ∧ get_participant "e1" "p7" (stored event)
    = (stored event, Raise ParticipantNotFound)
  ∧ ∃ p, get_participant "e1" "p1" (stored event) = (stored event, Return p)
         ∧ p ∈ [ana; twin] ∧ Participante.id p = "p1".
Proof.
  intros ana twin event.
  destruct (get_participant_first (stored event) "e1" event "p1" eq_refl)
    as (Hfirst & _ & Hsome).
  destruct (get_participant_first (stored event) "e1" event "p7" eq_refl)
    as (_ & Hnone & _).
  split; [|split].
  - apply (Hfirst 0%nat ana); [reflexivity | reflexivity |]. intros j q _ Hlt. lia.
  - apply Hnone. by_decide.
  - apply Hsome. by_decide.
Defined.

(** X5.  A participant that was added can be read back: after a successful
    add, a read of the new id returns exactly the participant that was sent,
    and a second add of the same participant is refused and changes nothing. *)
Theorem add_then_get (c : Container) event_id event participant :
  c !! event_id = Some event →
  len (Evento.participants event) < Evento.capacity event →
  Participante.id participant ∉ ids event →
  ∃ c', add_participant event_id participant c = (c', Return participant)
        ∧ get_participant event_id (Participante.id participant) c'
          = (c', Return participant)
        ∧ ∃ e, (e = CapacityExceeded ∨ e = DuplicateParticipant)
               ∧ add_participant event_id participant c' = (c', Raise e).
Proof.
  intros Hc Hroom Hnew.
  set (event' := set_participants event (Evento.participants event ++ [participant])).
  exists (<[event_id := event']> c).
  assert (Hc' : <[event_id := event']> c !! event_id = Some event')
    by apply lookup_insert_eq.
  split; [by apply add_participant_appends|]. split.
  - assert (Hfind : next_by_id (Participante.id participant)
                      (Evento.participants event')
                    = Some (length (Evento.participants event), participant)).
    { apply list_find_Some. simpl. repeat split.
      - by rewrite lookup_app_r, Nat.sub_diag by lia.
      - intros j q Hj Hlt Hq. rewrite lookup_app_l in Hj by done.
        apply Hnew. unfold ids. rewrite <- Hq. apply list_elem_of_fmap.
        exists q. split; [done | by eapply list_elem_of_lookup_2]. }
    run_handler. rewrite Hc'. cbv beta iota zeta. by rewrite Hfind.
  - destruct (Z_lt_ge_dec (len (Evento.participants event')) (Evento.capacity event')).
    + exists DuplicateParticipant. split; [by right|].
      apply (add_participant_duplicate _ _ event'); [done.. |].
      simpl. rewrite fmap_app. apply elem_of_app. right. simpl. left.
    + exists CapacityExceeded. split; [by left|].
      by apply (add_participant_full _ _ event').
Qed.

Lemma add_then_get_witness :
  let event := event_of 2 [participant_of "p1" "Ana"] in
  let luz := participant_of "p2" "Luz" in
  ∃ c', add_participant "e1" luz (stored event) = (c', Return luz)
        ∧ get_participant "e1" "p2" c' = (c', Return luz)
        ∧ ∃ e, (e = CapacityExceeded ∨ e = DuplicateParticipant)
               ∧ add_participant "e1" luz c' = (c', Raise e).
Proof.
  intros event luz.
  apply (add_then_get (stored event) "e1" event luz);
    [reflexivity | reflexivity | by_decide].
Defined.

(** X6.  Adding a participant with a fresh id and then deleting that id puts
    the container back exactly as it was. *)
Theorem add_then_delete (c : Container) event_id event participant :
  c !! event_id = Some event →
  len (Evento.participants event) < Evento.capacity event →
  Participante.id participant ∉ ids event →
  ∃ c', add_participant event_id participant c = (c', Return participant)
        ∧ delete_participant event_id (Participante.id participant) c'
          = (c, Return tt).
Proof.
  intros Hc Hroom Hnew.
  set (event' := set_participants event (Evento.participants event ++ [participant])).
  exists (<[event_id := event']> c).
  split; [by apply add_participant_appends|].
  assert (Hin : Participante.id participant ∈ Participante.id <$> Evento.participants event').
  { simpl. rewrite fmap_app. apply elem_of_app. right. simpl. left. }
  destruct (next_by_id_present _ _ Hin) as (i & p & Hfind & _).
  assert (Hback : set_participants event'
                    (filter (λ q, Participante.id q ≠ Participante.id participant)
                       (Evento.participants event')) = event).
  { change (Evento.participants event')
      with (Evento.participants event ++ [participant]).
    rewrite filter_app, filter_other_ids by done.
    rewrite filter_cons_False by (intros Hne; by apply Hne).
    rewrite filter_nil, app_nil_r. by destruct event. }
  run_handler. rewrite lookup_insert_eq. cbv beta iota zeta. rewrite Hfind.
  rewrite lookup_insert_eq, Hback.
  rewrite insert_insert_eq. by rewrite insert_id.
Qed.

Lemma add_then_delete_witness :
  let event := event_of 2 [participant_of "p1" "Ana"] in
  let luz := participant_of "p2" "Luz" in
  ∃ c', add_participant "e1" luz (stored event) = (c', Return luz)
        ∧ delete_participant "e1" "p2" c' = (stored event, Return tt).
Proof.
  intros event luz.
  apply (add_then_delete (stored event) "e1" event luz);
    [reflexivity | reflexivity | by_decide].
Defined.

(** X7.  Deleting an id from a stored event, whether or not the ids are
    distinct, removes every entry that carries it and keeps all the others in
    their order, so the list shrinks by the number of entries with that id;
    afterwards the id is gone, and a second delete fails with
    [ParticipantNotFound]. *)
Theorem delete_participant_all (c : Container) event_id event participant_id :
  c !! event_id = Some event →
  participant_id ∈ ids event →
  ∃ c' ps',
    delete_participant event_id participant_id c = (c', Return tt)
    ∧ c' = <[event_id := set_participants event ps']> c
    ∧ ps' = filter (λ p, Participante.id p ≠ participant_id) (Evento.participants event)
    ∧ (length ps' + length (filter (λ p, Participante.id p = participant_id)
                             (Evento.participants event))
       = length (Evento.participants event))%nat
    ∧ (participant_id ∉ Participante.id <$> ps')
    ∧ delete_participant event_id participant_id c' = (c', Raise ParticipantNotFound).
Proof.
  intros Hc Hin.
  destruct (next_by_id_present _ _ Hin) as (i & p & Hfind & _).
  set (ps' := filter (λ p, Participante.id p ≠ participant_id) (Evento.participants event)).
  assert (Hgone : participant_id ∉ Participante.id <$> ps').
  { intros (q & Hq & Hq')%list_elem_of_fmap.
    apply list_elem_of_filter in Hq' as [Hne _]. by apply Hne. }
  eexists _, ps'. split; [|split; [reflexivity|split; [reflexivity|split; [|split]]]].
  - run_handler. rewrite Hc. cbv beta iota zeta. rewrite Hfind. by rewrite Hc.
  - unfold ps'. clear. induction (Evento.participants event) as [|q l IH]; [done|].
    rewrite !filter_cons. destruct (decide (Participante.id q = participant_id)).
    + rewrite decide_False by (intros Hne; by apply Hne). simpl. lia.
    + rewrite decide_True by done. simpl. lia.
  - done.
  - assert (Hnone : next_by_id participant_id
                      (Evento.participants (set_participants event ps')) = None)
      by apply (next_by_id_absent _ _ Hgone).
    run_handler. rewrite lookup_insert_eq. cbv beta iota zeta. by rewrite Hnone.
Qed.

Lemma delete_participant_all_witness :
  let ana := participant_of "p1" "Ana" in
  let luz := participant_of "p2" "Luz" in
  let twin := participant_of "p1" "Eva" in
  let event := event_of 5 [ana; luz; twin] in
  ∃ c' ps',
    delete_participant "e1" "p1" (stored event) = (c', Return tt)
    ∧ c' = <["e1" := set_participants event ps']> (stored event)
    ∧ ps' = filter (λ p, Participante.id p ≠ "p1") [ana; luz; twin]
    ∧ (length ps' + length (filter (λ p, Participante.id p = "p1") [ana; luz; twin])
       = 3)%nat
    ∧ ("p1" ∉ Participante.id <$> ps')
    ∧ delete_participant "e1" "p1" c' = (c', Raise ParticipantNotFound).
Proof.
  intros ana luz twin event.
  apply (delete_participant_all (stored event) "e1" event "p1");
    [reflexivity | by_decide].
Defined.

(** ** All routes: what a request can and cannot do *)

Ltac run_app :=
  unfold app, respond; run_handler;
  unfold sort_by_registration_date, raise, mret, M_ret;
  repeat (case_match; cbv beta iota zeta; simpl in *; simplify_eq).

Ltac pick_error := repeat (first [by left | right]).

(** X8.  A request that is answered with an error has written nothing: the
    container is exactly as before. *)
Theorem failed_request_writes_nothing {python : Python} (r : request) (c : Container) e :
  (app r c).2 = Raise e → (app r c).1 = c.
Proof.
  destruct r; run_app; intros; by simplify_eq.
Qed.

Lemma failed_request_writes_nothing_witness :
  let full := stored (event_of 1 [participant_of "p1" "Ana"]) in
  (app (python := ascii_python)
     (POST_participants "e1" (participant_of "p2" "Luz")) full).1 = full.
Proof.
  intros full.
  apply (failed_request_writes_nothing (python := ascii_python)
           (POST_participants "e1" (participant_of "p2" "Luz")) full CapacityExceeded).
  reflexivity.
Defined.

(** X9.  The three reading routes never change the container, whether they
    succeed or fail; in particular the sort requested from the participant
    list is not written back. *)
Theorem reads_write_nothing {python : Python} (r : request) (c : Container) :
  is_GET r = true → (app r c).1 = c.
Proof.
  destruct r; try discriminate; intros _; run_app; done.
Qed.

Lemma reads_write_nothing_witness :
  (app (python := ascii_python) (GET_participants "e1" None None (Some "name") "desc")
     (stored (event_of 10 enrolled))).1
  = stored (event_of 10 enrolled).
Proof.
  apply (reads_write_nothing (python := ascii_python) (GET_participants "e1" None None (Some "name") "desc")).
  reflexivity.
Defined.

(** X10.  A request changes at most the event it is addressed to: every other
    stored event reads the same before and after. *)
Theorem other_events_untouched {python : Python} (r : request) (c : Container) other :
  other ≠ target r → (app r c).1 !! other = c !! other.
Proof.
  intros Hother.
  destruct r; simpl in Hother; run_app;
    rewrite ?lookup_insert_ne, ?lookup_delete_ne by done; done.
Qed.

Lemma other_events_untouched_witness :
  (app (python := ascii_python) (DELETE_event "e1") (<["e2" := event_of 3 []]> (stored (event_of 2 enrolled)))).1
    !! "e2"
  = (<["e2" := event_of 3 []]> (stored (event_of 2 enrolled))) !! "e2".
Proof.
  apply (other_events_untouched (python := ascii_python) (DELETE_event "e1")). discriminate.
Defined.

(** X11.  The three participant routes rewrite nothing but the participant
    list: the addressed event keeps its id, name, description, date, location
    and capacity, and no event appears or disappears. *)
Theorem participant_routes_keep_event {python : Python} (r : request) (c : Container) event :
  (∃ event_id participant, r = POST_participants event_id participant)
  ∨ (∃ event_id participant_id updated_participant,
       r = PUT_participant event_id participant_id updated_participant)
  ∨ (∃ event_id participant_id, r = DELETE_participant event_id participant_id) →
  c !! target r = Some event →
  (∃ ps, (app r c).1 !! target r = Some (set_participants event ps))
  ∧ dom (app r c).1 = dom c.
Proof.
  intros [(event_id & participant & ->)
         |[(event_id & participant_id & updated_participant & ->)
          |(event_id & participant_id & ->)]] Hc; simpl in Hc;
    run_app;
    match goal with
    | H : _ !! _ = Some ?stored_event |- _ =>
        solve [ split; [exists (Evento.participants stored_event);
                        by rewrite set_participants_same
                       | done]
              | split; [eexists; by rewrite lookup_insert_eq
                       | apply dom_insert_lookup_L; by eexists] ]
    end.
Qed.

Lemma participant_routes_keep_event_witness :
  let event := event_of 10 enrolled in
  (∃ ps, (app (python := ascii_python) (DELETE_participant "e1" "p2") (stored event)).1 !! "e1"
         = Some (set_participants event ps))
  ∧ dom (app (python := ascii_python) (DELETE_participant "e1" "p2") (stored event)).1 = dom (stored event).
Proof.
  intros event.
  apply (participant_routes_keep_event (python := ascii_python) (DELETE_participant "e1" "p2")
           (stored event) event).
  - right. right. by exists "e1", "p2".
  - reflexivity.
Defined.

(** X12.  Once every stored event has [capacity >= len(participants)], every
    request keeps it so, except the creation of an event whose own payload has
    more participants than capacity. *)
Theorem capacity_rule_kept {python : Python} (r : request) (c : Container) :
  all_within_capacity c →
  (∀ event, r = POST_events event → within_capacity event) →
  all_within_capacity (app r c).1.
Proof.
  intros Hall Hcreate.
  assert (Hfst : ∀ A status (wrap : A → content) (m : M A),
            (respond status wrap m c).1 = (m c).1).
  { intros A status wrap m. unfold respond, mbind, M_bind.
    destruct (m c) as [c' [a|e]]; done. }
  destruct r; simpl; rewrite Hfst.
  - apply create_event_keeps_capacity; [done | by apply Hcreate].
  - run_handler. repeat (case_match; simpl in *; simplify_eq); done.
  - by apply update_event_keeps_capacity.
  - by apply delete_event_keeps_capacity.
  - by apply add_participant_keeps_capacity.
  - run_handler. repeat (case_match; simpl in *; simplify_eq); done.
  - run_handler. unfold sort_by_registration_date, raise, mret, M_ret.
    repeat (case_match; simpl in *; simplify_eq); done.
  - by apply update_participant_keeps_capacity.
  - by apply delete_participant_keeps_capacity.
Qed.

Lemma capacity_rule_kept_witness :
  all_within_capacity (app (python := ascii_python) (POST_events (event_of 10 enrolled)) ∅).1.
Proof.
  apply (capacity_rule_kept (python := ascii_python) (POST_events (event_of 10 enrolled)) ∅).
  - intros event_id event Hlookup. by rewrite lookup_empty in Hlookup.
  - intros event [= <-]. unfold within_capacity. vm_compute. discriminate.
Defined.

(** ** Distinct participant ids *)

Lemma NoDup_insert_fresh_or_same {A} (l : list A) i x :
  NoDup l → (x ∉ l ∨ l !! i = Some x) → NoDup (<[i := x]> l).
Proof.
  intros Hnodup Hx. destruct (l !! i) as [y|] eqn:Hi; last first.
  { rewrite list_insert_ge; [done|]. by apply lookup_ge_None. }
  rewrite insert_take_drop by (by eapply lookup_lt_Some).
  rewrite <- (take_drop_middle l i y Hi) in Hnodup.
  apply NoDup_app in Hnodup as (Htake & Hdisjoint & Hrest).
  apply NoDup_cons in Hrest as (Hy & Hdrop).
  apply NoDup_app. split; [done|]. split; [|apply NoDup_cons; split; [|done]].
  - intros z Hz [->|Hz']%elem_of_cons.
    + destruct Hx as [Hfresh | [= ->]].
      * apply Hfresh. rewrite <- (take_drop_middle l i y Hi).
        apply elem_of_app. by left.
      * apply (Hdisjoint _ Hz). left.
    + apply (Hdisjoint _ Hz). by right.
  - destruct Hx as [Hfresh | [= ->]]; [|done].
    intros Hin. apply Hfresh. rewrite <- (take_drop_middle l i y Hi).
    apply elem_of_app. right. by right.
Qed.

(** X13.  Where the participant ids of a stored event are pairwise distinct,
    they still are after an add and after a delete, and after an update
    whose merged id is the old one or an id no entry carries.  (An update to
    the id of a sibling is the one way the handlers produce a repeated id.) *)
Theorem distinct_ids_kept (c : Container) event_id event :
  c !! event_id = Some event →
  NoDup (ids event) →
  (∀ participant event',
     (add_participant event_id participant c).1 !! event_id = Some event' →
     NoDup (ids event'))
  ∧ (∀ participant_id event',
       (delete_participant event_id participant_id c).1 !! event_id = Some event' →
       NoDup (ids event'))
  ∧ (∀ participant_id updated_participant i old event',
       Evento.participants event !! i = Some old →
       Participante.id old = participant_id →
       Participante.id (update_Participante old updated_participant) = participant_id
       ∨ Participante.id (update_Participante old updated_participant) ∉ ids event →
       (update_participant event_id participant_id updated_participant c).1 !! event_id
       = Some event' →
       NoDup (ids event')).
Proof.
  intros Hc Hnodup. split; [|split].
  - intros participant event'. run_handler. rewrite Hc. cbv beta iota zeta.
    destruct (_ >=? _); [simpl; by intros; simplify_eq|].
    case_bool_decide as Hdup; [simpl; by intros; simplify_eq|].
    rewrite Hc. simpl. rewrite lookup_insert_eq. intros [= <-].
    unfold ids. simpl. rewrite fmap_app. apply NoDup_app.
    split; [done|]. split; [|apply NoDup_singleton].
    intros x Hx ->%list_elem_of_singleton. by apply Hdup, Exists_id_elem_of.
  - intros participant_id event'. run_handler. rewrite Hc. cbv beta iota zeta.
    destruct (next_by_id _ _) as [found|]; [|simpl; by intros; simplify_eq].
    rewrite Hc. simpl. rewrite lookup_insert_eq. intros [= <-].
    unfold ids. simpl.
    eapply sublist_NoDup; [exact Hnodup | apply fmap_sublist, sublist_filter].
  - intros participant_id updated_participant i old event' Hi Hid Hnew.
    run_handler. rewrite Hc. cbv beta iota zeta.
    rewrite (next_by_id_unique _ _ _ _ Hnodup Hi Hid). rewrite Hc.
    rewrite (rebuilt_list_distinct _ _ _ old) by done.
    simpl. rewrite lookup_insert_eq. intros [= <-].
    unfold ids. simpl. rewrite list_fmap_insert.
    apply NoDup_insert_fresh_or_same; [done|].
    destruct Hnew as [Hsame | Hfresh]; [right | by left].
    rewrite list_lookup_fmap, Hi, Hsame, <- Hid. reflexivity.
Qed.

Lemma distinct_ids_kept_witness :
  let ana := participant_of "p1" "Ana" in
  let luz := participant_of "p2" "Luz" in
  let event := event_of 5 [ana; luz] in
  let body := mkBody (participant_of "p9" "Luz") {["id"; "name"; "email"]} in
  (∀ event',
     (add_participant "e1" (participant_of "p3" "Eva") (stored event)).1 !! "e1"
     = Some event' → NoDup (ids event'))
  ∧ (∀ event',
       (delete_participant "e1" "p1" (stored event)).1 !! "e1" = Some event' →
       NoDup (ids event'))
  ∧ (∀ event',
       (update_participant "e1" "p2" body (stored event)).1 !! "e1" = Some event' →
       NoDup (ids event')).
Proof.
  intros ana luz event body.
  assert (Hnodup : NoDup (ids event)) by by_decide.
  destruct (distinct_ids_kept (stored event) "e1" event eq_refl Hnodup)
    as (Hadd & Hdelete & Hupdate).
  split; [|split]; intros event' Hstored.
  - by apply (Hadd (participant_of "p3" "Eva")).
  - by apply (Hdelete "p1").
  - apply (Hupdate "p2" body 1%nat luz event');
      [reflexivity | reflexivity | right; by_decide | done].
Defined.

(** X14.  With pairwise distinct ids, an updated participant can be read back
    under its merged id when that id is the old one or an id no entry
    carries; when the id was changed, a read under the old id fails with
    [ParticipantNotFound]. *)
Theorem update_then_get (c : Container) event_id event participant_id
    updated_participant (i : nat) old :
  c !! event_id = Some event →
  NoDup (ids event) →
  Evento.participants event !! i = Some old →
  Participante.id old = participant_id →
  let new := update_Participante old updated_participant in
  Participante.id new = participant_id ∨ Participante.id new ∉ ids event →
  ∃ c',
    update_participant event_id participant_id updated_participant c = (c', Return new)
    ∧ get_participant event_id (Participante.id new) c' = (c', Return new)
    ∧ (Participante.id new ≠ participant_id →
       get_participant event_id participant_id c' = (c', Raise ParticipantNotFound)).
Proof.
  intros Hc Hnodup Hi Hid new Hnew.
  set (ps' := <[i := new]> (Evento.participants event)).
  set (event' := set_participants event ps').
  assert (Hlen : (i < length (Evento.participants event))%nat)
    by (by eapply lookup_lt_Some).
  assert (Hnodup' : NoDup (Participante.id <$> ps')).
  { unfold ps'. rewrite list_fmap_insert. apply NoDup_insert_fresh_or_same; [done|].
    destruct Hnew as [Hsame | Hfresh]; [right | by left].
    rewrite list_lookup_fmap, Hi, Hsame, <- Hid. reflexivity. }
  assert (Hi' : ps' !! i = Some new) by (by apply list_lookup_insert_eq).
  exists (<[event_id := event']> c). split; [|split].
  - run_handler. rewrite Hc. cbv beta iota zeta.
    rewrite (next_by_id_unique _ _ _ _ Hnodup Hi Hid). rewrite Hc.
    by rewrite (rebuilt_list_distinct _ _ _ old).
  - assert (Hfind : next_by_id (Participante.id new) (Evento.participants event')
                    = Some (i, new))
      by (by apply (next_by_id_unique _ ps')).
    run_handler. rewrite lookup_insert_eq. cbv beta iota zeta. by rewrite Hfind.
  - intros Hchanged.
    assert (Hgone : next_by_id participant_id (Evento.participants event') = None).
    { apply next_by_id_absent. simpl. unfold ps'. rewrite list_fmap_insert.
      intros Hin. apply list_elem_of_lookup in Hin as [j Hj].
      destruct (decide (i = j)) as [<-|Hne].
      - rewrite list_lookup_insert_eq in Hj by (by rewrite length_fmap).
        by injection Hj.
      - rewrite list_lookup_insert_ne in Hj by done.
        assert (i = j); [|done].
        apply (NoDup_lookup _ _ _ participant_id Hnodup); [|done].
        unfold ids. rewrite list_lookup_fmap, Hi. simpl. by rewrite Hid. }
    run_handler. rewrite lookup_insert_eq. cbv beta iota zeta. by rewrite Hgone.
Qed.

Lemma update_then_get_witness :
  let ana := participant_of "p1" "Ana" in
  let luz := participant_of "p2" "Luz" in
  let event := event_of 5 [ana; luz] in
  let body := mkBody (participant_of "p9" "Eva") {["id"; "name"]} in
  let new := update_Participante luz body in
  ∃ c',
    update_participant "e1" "p2" body (stored event) = (c', Return new)
    ∧ get_participant "e1" (Participante.id new) c' = (c', Return new)
    ∧ (Participante.id new ≠ "p2" →
       get_participant "e1" "p2" c' = (c', Raise ParticipantNotFound)).
Proof.
  intros ana luz event body new.
  apply (update_then_get (stored event) "e1" event "p2" body 1%nat luz);
    [reflexivity | by_decide | reflexivity | reflexivity | right; by_decide].
Defined.

(** ** Updating an event twice *)

Lemma update_Evento_twice existing body :
  update_Evento (update_Evento existing body) body = update_Evento existing body.
Proof.
  unfold update_Evento, merged. simpl. by repeat case_decide.
Qed.

Lemma update_event_absent (c : Container) event_id updated_event :
  c !! event_id = None →
  update_event event_id updated_event c = (c, Raise NotFound).
Proof. intros Hc. run_handler. by rewrite Hc. Qed.

Lemma update_event_found (c : Container) event_id existing updated_event :
  c !! event_id = Some existing →
  update_event event_id updated_event c
  = if Evento.capacity (update_Evento existing updated_event)
       <? len (Evento.participants (update_Evento existing updated_event))
    then (c, Raise InvalidState)
    else (<[event_id := update_Evento existing updated_event]> c,
          Return (update_Evento existing updated_event)).
Proof.
  intros Hc. run_handler. rewrite Hc. cbv beta iota zeta.
  destruct (_ <? _); [done|]. by rewrite Hc.
Qed.

(** X15.  Sending the same event update a second time changes nothing more:
    it gets the same answer as the first time and leaves the container as the
    first update left it, also when that answer is an error. *)
Theorem update_event_idempotent (c : Container) event_id updated_event :
  update_event event_id updated_event (update_event event_id updated_event c).1
  = update_event event_id updated_event c.
Proof.
  destruct (c !! event_id) as [existing|] eqn:Hc.
  - rewrite (update_event_found c _ existing) by done.
    destruct (_ <? _) eqn:Hcheck; simpl.
    + rewrite (update_event_found c _ existing) by done. by rewrite Hcheck.
    + rewrite (update_event_found _ _ (update_Evento existing updated_event))
        by apply lookup_insert_eq.
      rewrite update_Evento_twice, Hcheck. by rewrite insert_insert_eq.
  - rewrite (update_event_absent c) by done. simpl.
    by rewrite (update_event_absent c).
Qed.

(** ** Sorted participant lists *)

Lemma ltb_asymmetric (s t : string) : String.ltb s t = true → String.ltb t s = false.
Proof.
  unfold String.ltb. rewrite (String.compare_antisym s t).
  by destruct (String.compare t s).
Qed.

Lemma ltb_different (s t : string) : String.ltb s t = true → s ≠ t.
Proof.
  intros Hlt ->. unfold String.ltb in Hlt.
  pose proof (String.compare_antisym t t) as Hself.
  by destruct (String.compare t t).
Qed.

Section InsertionSort.
Context {A : Type} (key : A → string) (before : A → A → bool).
Hypothesis before_asymmetric : ∀ a b, before a b = true → before b a = false.
Hypothesis before_different : ∀ a b, before a b = true → key a ≠ key b.

Let follows (a b : A) : Prop := before b a = false.

Lemma insert_sorted_HdRel y x l :
  HdRel follows y l → follows y x → HdRel follows y (insert_sorted before x l).
Proof.
  intros Hhd Hyx. destruct l as [|z l]; simpl; [by constructor|].
  destruct (before z x); constructor; [by inversion Hhd | done].
Qed.

Lemma insert_sorted_Sorted x l :
  Sorted follows l → Sorted follows (insert_sorted before x l).
Proof.
  induction 1 as [|y l Hsorted IH Hhd]; simpl; [by repeat constructor|].
  destruct (before y x) eqn:Hyx.
  - constructor; [done|]. apply insert_sorted_HdRel; [done|].
    by apply before_asymmetric.
  - constructor; [by constructor|]. by constructor.
Qed.

Lemma insert_sorted_same_key x l k :
  filter (λ a, key a = k) (insert_sorted before x l)
  = filter (λ a, key a = k) (x :: l).
Proof.
  induction l as [|y l IH]; simpl; [done|].
  destruct (before y x) eqn:Hyx; [|done].
  rewrite filter_cons, IH, !filter_cons.
  apply before_different in Hyx.
  repeat case_decide; congruence.
Qed.

Lemma foldr_insert_sorted_Sorted l :
  Sorted follows (foldr (insert_sorted before) [] l).
Proof.
  induction l as [|x l IH]; simpl; [constructor | by apply insert_sorted_Sorted].
Qed.

Lemma foldr_insert_sorted_same_key l k :
  filter (λ a, key a = k) (foldr (insert_sorted before) [] l)
  = filter (λ a, key a = k) l.
Proof.
  induction l as [|x l IH]; simpl; [done|].
  by rewrite insert_sorted_same_key, !filter_cons, IH.
Qed.
End InsertionSort.

Lemma sort_ascending {A} (key : A → string) (l : list A) :
  ascending key (sort key false l).
Proof.
  apply (foldr_insert_sorted_Sorted (λ y x, String.ltb (key y) (key x))).
  intros a b. apply ltb_asymmetric.
Qed.

Lemma sort_descending {A} (key : A → string) (l : list A) :
  descending key (sort key true l).
Proof.
  apply (foldr_insert_sorted_Sorted (λ y x, String.ltb (key x) (key y))).
  intros a b. apply ltb_asymmetric.
Qed.

Lemma sort_stable {A} (key : A → string) reverse (l : list A) k :
  filter (λ a, key a = k) (sort key reverse l) = filter (λ a, key a = k) l.
Proof.
  unfold sort. apply foldr_insert_sorted_same_key. intros a b.
  destruct reverse; intros Hlt%ltb_different; congruence.
Qed.

Section SortedListing.
Context {python : Python}.

Lemma mapM_registration_date_strs (ps : list Participante.t) :
  Forall has_str_date ps →
  ∃ keys, mapM Participante.registration_date ps = Some keys ∧ Forall is_Str keys.
Proof.
  induction 1 as [|p ps [s Hp] _ (keys & Hkeys & Hstrs)]; [by exists []|].
  exists (Str s :: keys). split; [|by constructor].
  apply mapM_Some. constructor; [done | by apply mapM_Some].
Qed.

Lemma sort_by_registration_date_strs reverse ps (c : Container) :
  Forall has_str_date ps →
  sort_by_registration_date reverse ps c
  = (c, Return (sort registration_text reverse ps)).
Proof.
  intros (keys & Hkeys & Hstrs)%mapM_registration_date_strs.
  unfold sort_by_registration_date. rewrite Hkeys. by rewrite decide_True.
Qed.

Lemma sort_by_registration_date_missing reverse ps (c : Container) :
  (∃ p, p ∈ ps ∧ Participante.registration_date p = None) →
  sort_by_registration_date reverse ps c = (c, Raise (KeyError "registration_date")).
Proof.
  intros (p & Hp & Hnone). unfold sort_by_registration_date.
  destruct (mapM _ ps) as [keys|] eqn:Hkeys; [|done].
  apply mapM_Some in Hkeys.
  apply list_elem_of_lookup in Hp as [i Hi].
  destruct (Forall2_lookup_l _ _ _ _ _ Hkeys Hi) as (key & _ & Hkey).
  congruence.
Qed.

(** The listing with a sort key, where every participant that passes the
    filters has a [str] date. *)
Lemma list_participants_sorted_by (c : Container) event_id event
    (name email : option string) (sort_by order : string) :
  c !! event_id = Some event →
  let kept :=
    filter (λ p, passes name (Participante.name p)
                 ∧ passes email (Participante.email p))
      (Evento.participants event) in
  sort_by = "name" ∨ (sort_by = "registration_date" ∧ Forall has_str_date kept) →
  list_participants event_id name email (Some sort_by) order c
  = (c, Return (sort (sort_key sort_by) (bool_decide (lower order = "desc")) kept))
  ∧ list_participants event_id name email None order c = (c, Return kept).
Proof.
  intros Hc kept Hkey. split; [|by rewrite (list_participants_kept c _ event)].
  rewrite (list_participants_kept c _ event) by done. fold kept.
  destruct Hkey as [-> | [-> Hdates]]; [done|].
  rewrite decide_False, decide_True by done. unfold try_except.
  by rewrite sort_by_registration_date_strs.
Qed.

(** The listing by registration date where an entry that passes the filters has
    no such key. *)
Lemma list_participants_key_error (c : Container) event_id event
    (name email : option string) (order : string) p :
  c !! event_id = Some event →
  p ∈ Evento.participants event →
  passes name (Participante.name p) → passes email (Participante.email p) →
  Participante.registration_date p = None →
  list_participants event_id name email (Some "registration_date") order c
  = (c, Raise (HTTPException 400 "'registration_date'")).
Proof.
  intros Hc Hp Hname Hemail Hnone.
  rewrite (list_participants_kept c _ event) by done.
  rewrite decide_False, decide_True by done. unfold try_except.
  rewrite sort_by_registration_date_missing; [done|].
  exists p. split; [|done]. by apply list_elem_of_filter.
Qed.
End SortedListing.

(** X16.  A participant listing with sort key [name], or with sort key
    [registration_date] where every participant that passes the filters has a
    [str] registration date, is answered in order of that field: descending
    when [order], lowercased, is [desc], and ascending for every other value
    of [order]. *)
Theorem list_participants_in_order {python : Python} (c : Container) event_id event
    (name email : option string) (sort_by order : string) :
  c !! event_id = Some event →
  sort_by = "name"
  ∨ (sort_by = "registration_date"
     ∧ Forall has_str_date
         (filter (λ p, passes name (Participante.name p)
                       ∧ passes email (Participante.email p))
            (Evento.participants event))) →
  ∃ found,
    list_participants event_id name email (Some sort_by) order c = (c, Return found)
    ∧ (lower order = "desc" → descending (sort_key sort_by) found)
    ∧ (lower order ≠ "desc" → ascending (sort_key sort_by) found).
Proof.
  intros Hc Hkey. eexists.
  split; [by apply (list_participants_sorted_by c event_id event)|].
  split; intros Horder.
  - rewrite bool_decide_eq_true_2 by done. apply sort_descending.
  - rewrite bool_decide_eq_false_2 by done. apply sort_ascending.
Qed.

Lemma enrolled_have_str_dates : Forall has_str_date enrolled.
Proof. repeat constructor; by eexists. Qed.

Lemma same_day_have_str_dates : Forall has_str_date same_day.
Proof. repeat constructor; by eexists. Qed.

Lemma list_participants_in_order_witness :
  ∃ found,
    list_participants (python := ascii_python)
      "e1" None None (Some "registration_date") "DESC"
      (stored (event_of 10 enrolled))
    = (stored (event_of 10 enrolled), Return found)
    ∧ (lower (Python := ascii_python) "DESC" = "desc" →
       descending (sort_key "registration_date") found)
    ∧ (lower (Python := ascii_python) "DESC" ≠ "desc" →
       ascending (sort_key "registration_date") found).
Proof.
  apply (list_participants_in_order (python := ascii_python)
           (stored (event_of 10 enrolled)) "e1"
           (event_of 10 enrolled) None None "registration_date" "DESC");
    [reflexivity | right; split; [reflexivity | apply enrolled_have_str_dates]].
Defined.

(** X17.  The sort of a participant listing is stable in both directions:
    with sort key [name], or with sort key [registration_date] where every
    participant that passes the filters has a [str] registration date, the
    listed participants that share a value of the sort field come in the
    order in which the event stores them. *)
Theorem list_participants_stable {python : Python} (c : Container) event_id event
    (name email : option string) (sort_by order : string) :
  c !! event_id = Some event →
  sort_by = "name"
  ∨ (sort_by = "registration_date"
     ∧ Forall has_str_date
         (filter (λ p, passes name (Participante.name p)
                       ∧ passes email (Participante.email p))
            (Evento.participants event))) →
  ∃ found unsorted,
    list_participants event_id name email (Some sort_by) order c = (c, Return found)
    ∧ list_participants event_id name email None order c = (c, Return unsorted)
    ∧ ∀ k, filter (λ p, sort_key sort_by p = k) found
           = filter (λ p, sort_key sort_by p = k) unsorted.
Proof.
  intros Hc Hkey.
  destruct (list_participants_sorted_by c event_id event name email sort_by order
              Hc Hkey) as [Hsorted Hunsorted].
  eexists _, _. split; [exact Hsorted|]. split; [exact Hunsorted|].
  intros k. apply sort_stable.
Qed.

Example list_participants_stable_desc :
  (list_participants (python := ascii_python)
     "e1" None None (Some "registration_date") "desc"
     (stored (event_of 10 same_day))).2
  = Return (omap (same_day !!.) [1; 0; 2]%nat).
Proof. reflexivity. Qed.

Lemma list_participants_stable_witness :
  ∃ found unsorted,
    list_participants (python := ascii_python)
      "e1" None None (Some "registration_date") "desc"
      (stored (event_of 10 same_day))
    = (stored (event_of 10 same_day), Return found)
    ∧ list_participants (python := ascii_python)
        "e1" None None None "desc" (stored (event_of 10 same_day))
      = (stored (event_of 10 same_day), Return unsorted)
    ∧ ∀ k, filter (λ p, sort_key "registration_date" p = k) found
           = filter (λ p, sort_key "registration_date" p = k) unsorted.
Proof.
  apply (list_participants_stable (python := ascii_python)
           (stored (event_of 10 same_day)) "e1"
           (event_of 10 same_day) None None "registration_date" "desc");
    [reflexivity | right; split; [reflexivity | apply same_day_have_str_dates]].
Defined.

(** X20.  A participant listing sorted by registration date is answered
    with a 400 whose detail is the quoted key, and writes nothing, as soon as
    one participant that passes the filters is stored without a registration
    date; an event update whose body lists participants without registration
    date stores them that way. *)
Theorem list_participants_missing_date {python : Python} (c : Container)
    event_id event (name email : option string) (order : string) p :
  c !! event_id = Some event →
  p ∈ Evento.participants event →
  passes name (Participante.name p) → passes email (Participante.email p) →
  Participante.registration_date p = None →
  list_participants event_id name email (Some "registration_date") order c
  = (c, Raise (HTTPException 400 "'registration_date'"))
  ∧ ∃ found, list_participants event_id name email (Some "name") order c
             = (c, Return found) ∧ p ∈ found.
Proof.
  intros Hc Hp Hname Hemail Hnone.
  split; [by apply (list_participants_key_error c event_id event name email order p)|].
  eexists. split.
  - apply (list_participants_sorted_by c event_id event name email "name" order Hc).
    by left.
  - rewrite sort_Permutation. by apply list_elem_of_filter.
Qed.

(** An event update whose body lists one participant, sent without a
    registration date at clock reading 1725181200000000. *)
Lemma list_participants_missing_date_witness :
  let body :=
    mkBody (event_of 5 [model (Participante_init 1725181200000000 "p1" "Ana"
                                 "ana@example.com" None)])
      {["participants"]} in
  let c := (update_event "e1" body (stored (event_of 5 []))).1 in
  (Evento.participants <$> c !! "e1"
   = Some [ {| Participante.id := "p1"; Participante.name := "Ana";
               Participante.email := "ana@example.com";
               Participante.registration_date := None |} ])
  ∧ list_participants (python := ascii_python) "e1" None None
      (Some "registration_date") "asc" c
    = (c, Raise (HTTPException 400 "'registration_date'"))
  ∧ ∃ found, list_participants (python := ascii_python) "e1" None None
               (Some "name") "asc" c
             = (c, Return found)
             ∧ {| Participante.id := "p1"; Participante.name := "Ana";
                  Participante.email := "ana@example.com";
                  Participante.registration_date := None |} ∈ found.
Proof.
  intros body c. split; [reflexivity|].
  apply (list_participants_missing_date (python := ascii_python) c "e1"
           (set_participants (event_of 5 [])
              [ {| Participante.id := "p1"; Participante.name := "Ana";
                   Participante.email := "ana@example.com";
                   Participante.registration_date := None |} ])
           None None "asc");
    [reflexivity | by_decide | exact I | exact I | reflexivity].
Defined.

(** ** The event list: parameters and engine errors *)

(** X18.  The values of the date and location filters never enter the query
    text: two event listings that supply the same filters, sort key and
    order build the same text whatever the filter values.  The location goes
    to the engine as parameter [@location] as it was sent, the date as
    parameter [@date] in the normalised form of the parsed date. *)
Theorem list_events_values_are_parameters {python : Python} (datetime : Type)
    (strptime : string → string → option datetime)
    (strftime : datetime → string → string)
    (date date' location location' sort_by : option string) (order : string)
    query query' params params' :
  list_events_query datetime strptime strftime date location sort_by order
  = Return (query, params) →
  list_events_query datetime strptime strftime date' location' sort_by order
  = Return (query', params') →
  truthy date = truthy date' →
  truthy location = truthy location' →
  query = query'
  ∧ (∀ l, location = Some l → l ≠ "" → mkQueryParameter "@location" l ∈ params)
  ∧ (∀ d date_obj, date = Some d → d ≠ "" →
       strptime d "%Y-%m-%d" = Some date_obj →
       mkQueryParameter "@date" (strftime date_obj "%Y-%m-%d") ∈ params)
  ∧ length params
    = ((if truthy date then 1 else 0) + (if truthy location then 1 else 0))%nat.
Proof.
  unfold list_events_query. intros Hq Hq' Hdate Hlocation.
  rewrite <- Hdate, <- Hlocation in Hq'.
  destruct (truthy date) eqn:Htd; [destruct (strptime (default "" date) _) eqn:Hd;
    [destruct (strptime (default "" date') _) eqn:Hd'|]|];
    try discriminate;
    destruct (truthy location) eqn:Htl; simplify_eq;
    (split; [done|]); (split; [|split; [|done]]).
  all: first
    [ intros l -> Hl
    | intros text date_obj -> Hl Hparse ];
    simpl in *; simplify_eq;
    first
      [ solve [pick_error]
      | exfalso;
        match goal with
        | H : bool_decide _ = false |- _ => by apply (bool_decide_eq_false_1 _ H)
        end ].
Qed.

Lemma list_events_values_are_parameters_witness :
  ∃ query params params',
    list_events_query (python := ascii_python) _ Calendar.strptime Calendar.strftime
      (Some "2024-9-5") (Some "Lima") (Some "name") "asc"
    = Return (query, params)
    ∧ list_events_query (python := ascii_python) _ Calendar.strptime Calendar.strftime
        (Some "2025-01-31") (Some "x' OR 1=1") (Some "name") "asc"
      = Return (query, params')
    ∧ mkQueryParameter "@location" "Lima" ∈ params
    ∧ mkQueryParameter "@date" "2024-09-05" ∈ params
    ∧ length params = 2%nat.
Proof.
  destruct (list_events_values_are_parameters (python := ascii_python) _ Calendar.strptime Calendar.strftime
              (Some "2024-9-5") (Some "2025-01-31") (Some "Lima") (Some "x' OR 1=1")
              (Some "name") "asc" _ _ _ _ eq_refl eq_refl eq_refl eq_refl)
    as (Htext & Hlocation & Hdate & Hlength).
  eexists _, _, _. split; [reflexivity|]. split; [reflexivity|].
  split; [by apply Hlocation|]. split; [|exact Hlength].
  apply (Hdate "2024-9-5" (Calendar.mk 2024 9 5)); [reflexivity | done | reflexivity].
Defined.

(** X19.  The event list never lets an exception of the store client reach
    the caller: when the engine rejects the query, the answer is a 400 that
    carries the engine's message, and what the engine did to the container is
    all that happened to it; when the engine answers, its items are returned
    as they are. *)
Theorem list_events_engine {python : Python} (datetime : Type)
    (strptime : string → string → option datetime)
    (strftime : datetime → string → string)
    (query_items : string → list QueryParameter → M (list Evento.t))
    (date location sort_by : option string) (order : string) (c : Container) :
  (∀ e, (list_events datetime strptime strftime query_items
           date location sort_by order c).2 ≠ Raise (Cosmos e))
  ∧ (∀ query params c' e,
       list_events_query datetime strptime strftime date location sort_by order
       = Return (query, params) →
       query_items query params c = (c', Raise (Cosmos e)) →
       list_events datetime strptime strftime query_items
         date location sort_by order c
       = (c', Raise (HTTPException 400 (str e))))
  ∧ (∀ query params c' items,
       list_events_query datetime strptime strftime date location sort_by order
       = Return (query, params) →
       query_items query params c = (c', Return items) →
       list_events datetime strptime strftime query_items
         date location sort_by order c
       = (c', Return items)).
Proof.
  unfold list_events, try_except, except_http, raise, mbind, M_bind, mret, M_ret.
  split; [|split].
  - intros e.
    destruct (list_events_query _ _ _ _ _ _ _) as [[query params]|failure] eqn:Hq.
    + destruct (query_items query params c) as [c' [items|[e'|status detail|key|message]]]; done.
    + assert (failure = InvalidArgument) as ->; [|done].
      unfold list_events_query in Hq.
      destruct (truthy date); [destruct (strptime _ _)|];
        destruct (truthy location); by simplify_eq.
  - intros query params c' e -> Hengine. by rewrite Hengine.
  - intros query params c' items -> Hengine. by rewrite Hengine.
Qed.

Lemma list_events_engine_witness :
  list_events (python := ascii_python) _ Calendar.strptime Calendar.strftime
    (query_items_rejecting "Syntax error, incorrect syntax near 'SIDEWAYS'.")
    None None (Some "name") "sideways" ∅
  = (∅, Raise (HTTPException 400 "Syntax error, incorrect syntax near 'SIDEWAYS'."))
  ∧ list_events (python := ascii_python) _ Calendar.strptime Calendar.strftime query_items_empty
      None (Some "Lima") None "asc" ∅
    = (∅, Return []).
Proof.
  split.
  - destruct (list_events_engine (python := ascii_python) _ Calendar.strptime Calendar.strftime
                (query_items_rejecting "Syntax error, incorrect syntax near 'SIDEWAYS'.")
                None None (Some "name") "sideways" ∅) as (_ & Hrejected & _).
    apply (Hrejected _ _ ∅ (CosmosHttpResponseError _) eq_refl eq_refl).
  - destruct (list_events_engine (python := ascii_python) _ Calendar.strptime Calendar.strftime query_items_empty
                None (Some "Lima") None "asc" ∅) as (_ & _ & Hanswered).
    apply (Hanswered _ _ ∅ [] eq_refl eq_refl).
Defined.
